(** * The compression queue of the video compressor (App component)

    A shallow embedding of the queue store and of the job driver of the
    [App] component: [addFiles], [updateItem], [clearFinished],
    [cancelItem], the effect that runs [processNext], the progress
    listener it registers on the engine, and the expression that forms
    the download name of a finished item.

    Conventions of the embedding.
    - The five status literals ['queued'], ['processing'], ['done'],
      ['error'], ['skipped'] are the constructors of [Status].
    - An item id is the template string [`${Date.now()}-${idCounter.current++}`];
      it is kept as the pair of the two numbers it is printed from.
    - The engine file names [`in_${item.id}`] and [`out_${item.id}.mp4`]
      are the constructors [InputName] and [OutputName].
    - React state is a record [World]; a state setter called with an
      updater function applies that function to the current store.
    - An [await] splits [processNext] into phases: a [Task] remembers the
      item captured by the closure and the [await] it is suspended at.
    - The progress values carried by the events of a run are exact
      rationals, [undefined] and [NaN], both falsy, being [None]; that is
      enough where the value is only passed on.  What the handler
      computes from a value is [percent64], on doubles.
    - What makes the component move is an [Event]: a click, a drop, a
      promise that settles, a progress event of the engine, a run of the
      effect.  [run] lets the effect run at any moment; [play] makes it
      run when React does, after an event and again for as long as the
      run changes the store.  In both the effect reads the store as it
      is; [runIn] gives each event the render its closures belong to,
      which may be older than the store. *)

From Stdlib Require Import List Bool Arith ZArith QArith Qround Lia Lqa.
From Stdlib Require Import Ascii String.
From Stdlib Require Import Qabs SpecFloat.
Import ListNotations.

(** ** Data model *)

Inductive Status : Set :=
| queued | processing | done | error | skipped.

Definition Status_eqb (a b : Status) : bool :=
  match a, b with
  | queued, queued | processing, processing | done, done
  | error, error | skipped, skipped => true
  | _, _ => false
  end.

(** [`${Date.now()}-${idCounter.current++}`] *)
Definition ItemId : Set := (Z * nat)%type.

Definition ItemId_eqb (a b : ItemId) : bool :=
  Z.eqb (fst a) (fst b) && Nat.eqb (snd a) (snd b).

(** A [File] of the browser: its name and an opaque reference to its bytes. *)
Record File : Set := { f_name : string; f_ref : nat }.

(** An item of the queue: [{id, file, name, status, progress, outputUrl, error}]. *)
Record Item : Set := mkItem {
  id : ItemId;
  file : File;
  name : string;
  status : Status;
  progress : Z;
  outputUrl : option string;   (* null is None *)
  err : option string          (* the field [error]; null is None *)
}.

(** A patch object: the fields it carries, each absent or present.  A
    present [outputUrl] or [error] may itself be null. *)
Record Patch : Set := mkPatch {
  p_id : option ItemId;
  p_file : option File;
  p_name : option string;
  p_status : option Status;
  p_progress : option Z;
  p_outputUrl : option (option string);
  p_err : option (option string)
}.

Definition or_else {A : Type} (o : option A) (d : A) : A :=
  match o with Some a => a | None => d end.

(** The object spread [{ ...it, ...patch }]. *)
Definition spread (it : Item) (patch : Patch) : Item :=
  {| id := or_else (p_id patch) (id it);
     file := or_else (p_file patch) (file it);
     name := or_else (p_name patch) (name it);
     status := or_else (p_status patch) (status it);
     progress := or_else (p_progress patch) (progress it);
     outputUrl := or_else (p_outputUrl patch) (outputUrl it);
     err := or_else (p_err patch) (err it) |}.

(** ** The queue store *)

Definition Queue : Set := list Item.

(** [prev.map(it => it.id === id ? { ...it, ...patch } : it)] *)
Definition updateItem (i : ItemId) (patch : Patch) (prev : Queue) : Queue :=
  map (fun it => if ItemId_eqb (id it) i then spread it patch else it) prev.

(** [prev.filter(it => it.status !== 'done' && it.status !== 'error')] *)
Definition clearFinished (prev : Queue) : Queue :=
  filter (fun it => negb (Status_eqb (status it) done)
                    && negb (Status_eqb (status it) error)) prev.

(** [updateItem(id, { status: 'skipped' })] *)
Definition cancelItem (i : ItemId) (prev : Queue) : Queue :=
  updateItem i (mkPatch None None None (Some skipped) None None None) prev.

(** [Array.from(files).map(f => ({...}))]: the clock and the counter are
    read once per file, the counter being incremented; each file comes
    with the value [Date.now()] has when its item is made. *)
Fixpoint newItems (counter : nat) (files : list (Z * File)) : list Item :=
  match files with
  | [] => []
  | (now, f) :: rest =>
      {| id := (now, counter); file := f; name := f_name f;
         status := queued; progress := 0%Z; outputUrl := None; err := None |}
      :: newItems (S counter) rest
  end.

(** [setQueue(prev => [...prev, ...items])] *)
Definition addFiles (counter : nat) (files : list (Z * File))
    (prev : Queue) : Queue :=
  prev ++ newItems counter files.

(** ** The engine, as the driver sees it *)

Inductive FileName : Set :=
| InputName (i : ItemId)     (* `in_${item.id}` *)
| OutputName (i : ItemId).   (* `out_${item.id}.mp4` *)

(** [selectedScale], [crf] and [preset], as captured by the effect. *)
Record Settings : Set := {
  selectedScale : option Z;
  crf : Z;
  preset : string
}.

Inductive Arg : Set :=
| Lit (s : string)
| FileArg (n : FileName)
| ScaleArg (scale : Z)       (* `scale='min(${selectedScale},iw)':-2` *)
| NumArg (n : Z).            (* String(crf) *)

(** [selectedScale ? ['-vf', ...] : []] *)
Definition vfArgs (s : Settings) : list Arg :=
  match selectedScale s with
  | Some z => if Z.eqb z 0 then [] else [Lit "-vf"; ScaleArg z]
  | None => []
  end.

Definition args (s : Settings) (inputName outputName : FileName) : list Arg :=
  [Lit "-i"; FileArg inputName] ++ vfArgs s ++
  [Lit "-c:v"; Lit "libx264";
   Lit "-crf"; NumArg (crf s);
   Lit "-preset"; Lit (preset s);
   Lit "-c:a"; Lit "aac"; Lit "-b:a"; Lit "128k";
   Lit "-movflags"; Lit "+faststart";
   FileArg outputName].

(** The calls the driver makes on the engine. *)
Inductive EngineCall : Set :=
| ArrayBuffer (f : File)             (* item.file.arrayBuffer() *)
| WriteFile (n : FileName)
| OnProgress (i : ItemId)            (* ffmpeg.on('progress', handler of item i) *)
| Exec (a : list Arg)
| ReadFile (n : FileName)
| DeleteFile (n : FileName).

(** A thrown value: its [message], when it has one, and [String(err)]. *)
Record Thrown : Set := { message : option string; asString : string }.

(** [err?.message || String(err)] *)
Definition errorText (e : Thrown) : string :=
  match message e with
  | Some m => if String.eqb m "" then asString e else m
  | None => asString e
  end.

(** How an awaited promise settles.  The only fulfilment value used
    downstream is that of [readFile], through the object URL made from it. *)
Inductive Outcome : Set :=
| Fulfilled (url : string)
| Rejected (e : Thrown).

(** The [await] at which a call of [processNext] is suspended. *)
Inductive Phase : Set :=
| AwaitArrayBuffer | AwaitWriteFile | AwaitExec | AwaitReadFile
| AwaitDeleteInput | AwaitDeleteOutput | Returned.

Record Task : Set := {
  t_item : Item;           (* [item], as read from the rendered queue *)
  t_settings : Settings;
  t_phase : Phase
}.

Record World : Set := mkWorld {
  queue : Queue;
  running : bool;
  ready : bool;
  ffmpeg : bool;                (* the hook returned a non-null engine *)
  settings : Settings;
  idCounter : nat;
  listeners : list ItemId;      (* 'progress' handlers on the engine, oldest first *)
  tasks : list Task;            (* calls of processNext, oldest first *)
  calls : list EngineCall       (* engine calls made so far, oldest first *)
}.

Definition setQueue (f : Queue -> Queue) (w : World) : World :=
  mkWorld (f (queue w)) (running w) (ready w) (ffmpeg w) (settings w)
          (idCounter w) (listeners w) (tasks w) (calls w).

Definition call (c : EngineCall) (w : World) : World :=
  mkWorld (queue w) (running w) (ready w) (ffmpeg w) (settings w)
          (idCounter w) (listeners w) (tasks w) (calls w ++ [c]).

Definition on_progress (i : ItemId) (w : World) : World :=
  call (OnProgress i)
    (mkWorld (queue w) (running w) (ready w) (ffmpeg w) (settings w)
             (idCounter w) (listeners w ++ [i]) (tasks w) (calls w)).

Definition setTasks (ts : list Task) (w : World) : World :=
  mkWorld (queue w) (running w) (ready w) (ffmpeg w) (settings w)
          (idCounter w) (listeners w) ts (calls w).

(** ** Progress events *)

(** [progress || 0] *)
Definition or_zero (p : option Q) : Q := or_else p 0%Q.

(** [Math.round]: the nearest integer, halves going up. *)
Definition Math_round (x : Q) : Z := Qfloor (x + (1 # 2)).

(** [Math.round((progress || 0) * 100)], the product taken exactly. *)
Definition percent (p : option Q) : Z := Math_round (or_zero p * 100).

(** The handler registered for item [i]:
    [({ progress }) => updateItem(item.id, { progress: ... })] *)
Definition progressHandler (i : ItemId) (p : option Q) (q : Queue) : Queue :=
  updateItem i (mkPatch None None None None (Some (percent p)) None None) q.

(** The engine emits one 'progress' event: every registered handler runs,
    in registration order. *)
Definition emitProgress (p : option Q) (w : World) : World :=
  setQueue (fun q => fold_left (fun q i => progressHandler i p q) (listeners w) q) w.

(** ** processNext *)

(** [queue.findIndex(pred)], with -1 as [None]. *)
Fixpoint findIndex (pred : Item -> bool) (q : Queue) : option nat :=
  match q with
  | [] => None
  | it :: rest =>
      if pred it then Some 0%nat
      else match findIndex pred rest with
           | Some n => Some (S n)
           | None => None
           end
  end.

Definition isQueued (it : Item) : bool := Status_eqb (status it) queued.

(** The two guards and the selection; [None] is an early [return]. *)
Definition selectNext (w : World) : option Item :=
  if negb (ready w) || negb (ffmpeg w) then None
  else if negb (running w) then None
  else match findIndex isQueued (queue w) with
       | None => None
       | Some nextIndex => nth_error (queue w) nextIndex
       end.

Definition processingPatch : Patch :=
  mkPatch None None None (Some processing) (Some 0%Z) None (Some None).

Definition donePatch (url : string) : Patch :=
  mkPatch None None None (Some done) (Some 100%Z) (Some (Some url)) None.

Definition errorPatch (e : Thrown) : Patch :=
  mkPatch None None None (Some error) None None (Some (Some (errorText e))).

(** [processNext()] up to its first [await]. *)
Definition processNext (w : World) : World :=
  match selectNext w with
  | None => w
  | Some item =>
      let w1 := setQueue (updateItem (id item) processingPatch) w in
      let w2 := call (ArrayBuffer (file item)) w1 in
      setTasks (tasks w2 ++ [ {| t_item := item; t_settings := settings w;
                                 t_phase := AwaitArrayBuffer |} ]) w2
  end.

(** One suspended call of [processNext] resumes because the promise it
    awaits has settled; it runs to its next [await] or to its end.  The
    world and the next phase are returned. *)
Definition resume (t : Task) (o : Outcome) (w : World) : World * Phase :=
  let item := t_item t in
  let inputName := InputName (id item) in
  let outputName := OutputName (id item) in
  match t_phase t, o with
  | Returned, _ => (w, Returned)
  (* try { await ffmpeg.deleteFile(inputName) } catch {} *)
  | AwaitDeleteInput, _ => (call (DeleteFile outputName) w, AwaitDeleteOutput)
  (* try { await ffmpeg.deleteFile(outputName) } catch {} *)
  | AwaitDeleteOutput, _ => (w, Returned)
  (* catch (err) { updateItem(item.id, { status: 'error', error: ... }) } *)
  | _, Rejected e => (setQueue (updateItem (id item) (errorPatch e)) w, Returned)
  | AwaitArrayBuffer, Fulfilled _ => (call (WriteFile inputName) w, AwaitWriteFile)
  | AwaitWriteFile, Fulfilled _ =>
      (call (Exec (args (t_settings t) inputName outputName))
         (on_progress (id item) w), AwaitExec)
  | AwaitExec, Fulfilled _ => (call (ReadFile outputName) w, AwaitReadFile)
  | AwaitReadFile, Fulfilled url =>
      (call (DeleteFile inputName)
         (setQueue (updateItem (id item) (donePatch url)) w), AwaitDeleteInput)
  end.

Fixpoint setPhase (k : nat) (ph : Phase) (ts : list Task) : list Task :=
  match ts, k with
  | [], _ => []
  | t :: rest, O =>
      {| t_item := t_item t; t_settings := t_settings t; t_phase := ph |} :: rest
  | t :: rest, S k' => t :: setPhase k' ph rest
  end.

Definition settle (k : nat) (o : Outcome) (w : World) : World :=
  match nth_error (tasks w) k with
  | None => w
  | Some t =>
      let (w', ph) := resume t o w in
      setTasks (setPhase k ph (tasks w')) w'
  end.

(** ** The rendered list *)

(** [!['done','error','skipped'].includes(item.status)]: the Skip button
    is rendered. *)
Definition skipShown (it : Item) : bool :=
  negb (Status_eqb (status it) done || Status_eqb (status it) error
        || Status_eqb (status it) skipped).

Definition truthy (o : option string) : bool :=
  match o with
  | Some s => negb (String.eqb s "")
  | None => false
  end.

(** *** [item.name.replace(/\.[^.]+$/, '')] *)

Definition isDot (c : ascii) : bool := Ascii.eqb c "."%char.

(** [[^.]*$] matches here: nothing but non-dots up to the end. *)
Fixpoint noDot (s : string) : bool :=
  match s with
  | EmptyString => true
  | String c rest => negb (isDot c) && noDot rest
  end.

(** [\.[^.]+$] matches at the start of [s]. *)
Definition matchesHere (s : string) : bool :=
  match s with
  | String c (String d rest) => isDot c && negb (isDot d) && noDot rest
  | _ => false
  end.

(** The leftmost match is replaced by the empty string; as the pattern
    ends in [$], what follows the match is empty. *)
Fixpoint replaceExt (s : string) : string :=
  if matchesHere s then EmptyString
  else match s with
       | EmptyString => EmptyString
       | String c rest => String c (replaceExt rest)
       end.

(** [item.name.replace(/\.[^.]+$/, '') + '-compressed.mp4'] *)
Definition downloadName (nm : string) : string :=
  (replaceExt nm ++ "-compressed.mp4")%string.

(** [item.outputUrl && <a href=... download=...>]: the [download]
    attribute of the link, when the link is rendered. *)
Definition downloadLink (it : Item) : option string :=
  if truthy (outputUrl it) then Some (downloadName (name it)) else None.

(** ** Events and runs *)

Inductive Event : Set :=
| Effect                                  (* the effect runs processNext() *)
| Settle (k : nat) (o : Outcome)          (* the promise task k awaits settles *)
| Progress (p : option Q)                 (* the engine emits 'progress' *)
| ClickSkip (i : ItemId)
| ClickClear
| AddFiles (files : list (Z * File))
| SetRunning (b : bool)                   (* Start and Pause *)
| SetSettings (s : Settings)
| Loaded.                                 (* ffmpeg.load() is through *)

Definition step (e : Event) (w : World) : World :=
  match e with
  | Effect => processNext w
  | Settle k o => settle k o w
  | Progress p => emitProgress p w
  | ClickSkip i =>
      if existsb (fun it => ItemId_eqb (id it) i && skipShown it) (queue w)
      then setQueue (cancelItem i) w else w
  | ClickClear => setQueue clearFinished w
  | AddFiles files =>
      mkWorld (addFiles (idCounter w) files (queue w)) (running w) (ready w)
              (ffmpeg w) (settings w) (idCounter w + List.length files)
              (listeners w) (tasks w) (calls w)
  | SetRunning b =>
      mkWorld (queue w) b (ready w) (ffmpeg w) (settings w)
              (idCounter w) (listeners w) (tasks w) (calls w)
  | SetSettings s =>
      mkWorld (queue w) (running w) (ready w) (ffmpeg w) s
              (idCounter w) (listeners w) (tasks w) (calls w)
  | Loaded =>
      mkWorld (queue w) (running w) true true (settings w)
              (idCounter w) (listeners w) (tasks w) (calls w)
  end.

Definition run (es : list Event) (w : World) : World :=
  fold_left (fun w e => step e w) es w.

(** The effect has the store among its dependencies: a run that starts
    an item changes the store and is followed by another run, until a
    run returns early. *)
Fixpoint effectRuns (fuel : nat) (w : World) : World :=
  match fuel with
  | O => w
  | S fuel' =>
      match selectNext w with
      | None => w
      | Some _ => effectRuns fuel' (processNext w)
      end
  end.

(** An event, then the runs of the effect that its state change triggers. *)
Definition dispatch (e : Event) (w : World) : World :=
  effectRuns (S (List.length (queue (step e w)))) (step e w).

Definition play (es : list Event) (w : World) : World :=
  fold_left (fun w e => dispatch e w) es w.

(** The state of the component when it mounts. *)
Definition initial : World :=
  {| queue := []; running := false; ready := false; ffmpeg := false;
     settings := {| selectedScale := Some 1280%Z; crf := 24%Z;
                    preset := "medium" |};
     idCounter := 0; listeners := []; tasks := []; calls := [] |}.

Definition countStatus (s : Status) (q : Queue) : nat :=
  List.length (filter (fun it => Status_eqb (status it) s) q).

(** ** The download name, in the words of the specification

    "The original display name with its extension stripped": the
    extension is what follows the last ['.'] of the name, and it is
    stripped together with that ['.'] when it is not empty. *)

Fixpoint lastDot (s : string) : option nat :=
  match s with
  | EmptyString => None
  | String c rest =>
      match lastDot rest with
      | Some n => Some (S n)
      | None => if isDot c then Some 0%nat else None
      end
  end.

Definition stripExtension_spec (s : string) : string :=
  match lastDot s with
  | Some n => if Nat.ltb (S n) (String.length s) then substring 0 n s else s
  | None => s
  end.

Definition downloadName_spec (nm : string) : string :=
  ((stripExtension_spec nm ++ "-compressed") ++ ".mp4")%string.

(** A field of a merged object: the patch's value when the patch carries
    the field, the old value otherwise. *)
Definition fieldMerged {A : Type} (old : A) (given : option A) (new : A) : Prop :=
  match given with
  | Some v => new = v
  | None => new = old
  end.

Definition mergedInto (it : Item) (patch : Patch) (it' : Item) : Prop :=
  fieldMerged (id it) (p_id patch) (id it')
  /\ fieldMerged (file it) (p_file patch) (file it')
  /\ fieldMerged (name it) (p_name patch) (name it')
  /\ fieldMerged (status it) (p_status patch) (status it')
  /\ fieldMerged (progress it) (p_progress patch) (progress it')
  /\ fieldMerged (outputUrl it) (p_outputUrl patch) (outputUrl it')
  /\ fieldMerged (err it) (p_err patch) (err it').

(** [l] is [q] with some elements left out, the others in their order. *)
Inductive Subsequence {A : Type} : list A -> list A -> Prop :=
| Subsequence_nil : Subsequence [] []
| Subsequence_keep x l q : Subsequence l q -> Subsequence (x :: l) (x :: q)
| Subsequence_drop x l q : Subsequence l q -> Subsequence l (x :: q).

(** The test of [clearFinished]. *)
Definition keptByClear (it : Item) : bool :=
  negb (Status_eqb (status it) done) && negb (Status_eqb (status it) error).

(** ** Sample data *)

Definition clipFile : File := {| f_name := "clip.mov"; f_ref := 0 |}.
Definition talkFile : File := {| f_name := "talk.webm"; f_ref := 1 |}.

(** [Date.now()] at the first and at a later drop. *)
Definition firstDrop : Z := 1700000000000.
Definition laterDrop : Z := 1700000060000.

Definition clipId : ItemId := (firstDrop, 0%nat).
Definition talkId : ItemId := (firstDrop, 1%nat).
Definition lateTalkId : ItemId := (laterDrop, 1%nat).

Definition clipItem (s : Status) (p : Z) : Item :=
  {| id := clipId; file := clipFile; name := "clip.mov"; status := s;
     progress := p; outputUrl := None; err := None |}.

Definition talkItem (s : Status) (p : Z) : Item :=
  {| id := talkId; file := talkFile; name := "talk.webm"; status := s;
     progress := p; outputUrl := None; err := None |}.

(** The engine has loaded, one file was dropped, Start was clicked. *)
Definition oneDropped : list Event :=
  [Loaded; AddFiles [(firstDrop, clipFile)]; SetRunning true].

(** The same with two files dropped at once. *)
Definition twoDropped : list Event :=
  [Loaded; AddFiles [(firstDrop, clipFile); (firstDrop, talkFile)];
   SetRunning true].

Definition anyUrl : Outcome := Fulfilled "blob:1".
Definition failure : Thrown :=
  {| message := Some "exec failed"%string;
     asString := "Error: exec failed" |}.

(** Task 0 goes through its six awaits, all of them fulfilled. *)
Definition sixFulfilled : list Event :=
  [Settle 0 anyUrl; Settle 0 anyUrl; Settle 0 anyUrl; Settle 0 anyUrl;
   Settle 0 anyUrl; Settle 0 anyUrl].

(** The ids of the items processNext has started, oldest first. *)
Definition startedIds (w : World) : list ItemId :=
  map (fun t => id (t_item t)) (tasks w).

(** The task processNext leaves suspended when it starts [item]. *)
Definition newTask (w : World) (item : Item) : Task :=
  {| t_item := item; t_settings := settings w; t_phase := AwaitArrayBuffer |}.


(** [{ ...it, progress: v }] *)
Definition setProgress (it : Item) (v : Z) : Item :=
  mkItem (id it) (file it) (name it) (status it) v (outputUrl it) (err it).

Definition subscribed (ls : list ItemId) (it : Item) : bool :=
  existsb (fun i => ItemId_eqb (id it) i) ls.

Definition isDeleteFile (c : EngineCall) : bool :=
  match c with DeleteFile _ => true | _ => false end.

Definition withPhase (t : Task) (ph : Phase) : Task :=
  {| t_item := t_item t; t_settings := t_settings t; t_phase := ph |}.

(** The phase of task [k], when there is one. *)
Definition phaseOf (k : nat) (w : World) : option Phase :=
  option_map t_phase (nth_error (tasks w) k).

(** ** Views of the driver used by the invariants *)

(** The phases that come after the item was marked done or error. *)
Definition pastRead (ph : Phase) : bool :=
  match ph with
  | AwaitDeleteInput | AwaitDeleteOutput | Returned => true
  | _ => false
  end.

(** What [resume] writes to the store, and the phase it leaves the task in. *)
Definition nextPatch (ph : Phase) (o : Outcome) : option Patch :=
  match ph, o with
  | Returned, _ | AwaitDeleteInput, _ | AwaitDeleteOutput, _ => None
  | _, Rejected e => Some (errorPatch e)
  | AwaitReadFile, Fulfilled url => Some (donePatch url)
  | _, Fulfilled _ => None
  end.

Definition nextPhase (ph : Phase) (o : Outcome) : Phase :=
  match ph, o with
  | Returned, _ => Returned
  | AwaitDeleteInput, _ => AwaitDeleteOutput
  | AwaitDeleteOutput, _ => Returned
  | _, Rejected _ => Returned
  | AwaitArrayBuffer, Fulfilled _ => AwaitWriteFile
  | AwaitWriteFile, Fulfilled _ => AwaitExec
  | AwaitExec, Fulfilled _ => AwaitReadFile
  | AwaitReadFile, Fulfilled _ => AwaitDeleteInput
  end.

(** No call of processNext on item [i] can still write its status. *)
Definition settledFor (i : ItemId) (w : World) : Prop :=
  forall t, In t (tasks w) -> id (t_item t) = i -> pastRead (t_phase t) = true.

(** Every item with id [i] has status [s], no call of processNext is
    left to change that, and [i] is an id of the past. *)
Definition stable (i : ItemId) (s : Status) (w : World) : Prop :=
  (snd i < idCounter w)%nat
  /\ (forall it, In it (queue w) -> id it = i -> status it = s)
  /\ settledFor i w.

(** What holds of every state reached by [run], where each run of the
    effect reads the store as it is at that moment. *)
Record Inv (w : World) : Prop := {
  inv_ids : NoDup (map id (queue w));
  inv_fresh : forall it, In it (queue w) -> (snd (id it) < idCounter w)%nat;
  inv_task_fresh :
    forall t, In t (tasks w) -> (snd (id (t_item t)) < idCounter w)%nat;
  inv_once : NoDup (startedIds w);
  inv_started :
    forall t it, In t (tasks w) -> In it (queue w) -> id it = id (t_item t) ->
                 status it <> queued;
  inv_finished :
    forall t it, In t (tasks w) -> In it (queue w) -> id it = id (t_item t) ->
                 status it = done \/ status it = error ->
                 pastRead (t_phase t) = true
}.

(** ** The rest of the component *)

(** The table [presets]: id, label and scale of each size preset. *)
Record Preset : Set := { pr_id : string; pr_label : string; pr_scale : option Z }.

Definition presets : list Preset :=
  [ {| pr_id := "1080p"; pr_label := "1080p (max width 1920)"; pr_scale := Some 1920%Z |};
    {| pr_id := "720p"; pr_label := "720p (max width 1280)"; pr_scale := Some 1280%Z |};
    {| pr_id := "480p"; pr_label := "480p (max width 854)"; pr_scale := Some 854%Z |};
    {| pr_id := "original"; pr_label := "Original size"; pr_scale := None |} ].

(** [presets.find(p => p.id === sizePreset)?.scale ?? null] *)
Definition scaleOf (sizePreset : string) : option Z :=
  match find (fun p => String.eqb (pr_id p) sizePreset) presets with
  | Some p => pr_scale p
  | None => None
  end.

(** The three counters of the queue header:
    [queue.filter(q => q.status === ...).length]. *)
Definition totalQueued (q : Queue) : nat := countStatus queued q.
Definition totalProcessing (q : Queue) : nat := countStatus processing q.
Definition totalDone (q : Queue) : nat := countStatus done q.

(** The item [addFiles] makes of a file. *)
Definition freshItem (now : Z) (counter : nat) (f : File) : Item :=
  {| id := (now, counter); file := f; name := f_name f; status := queued;
     progress := 0%Z; outputUrl := None; err := None |}.

(** The state of a component whose engine never was ready. *)
Definition nothingStarted (w : World) : Prop :=
  ready w = false /\ tasks w = [] /\ listeners w = [] /\ calls w = []
  /\ forall it, In it (queue w) ->
       (status it = queued \/ status it = skipped)
       /\ progress it = 0%Z /\ outputUrl it = None /\ err it = None.


(** ** The order of the engine calls *)

(** The ids a progress handler was registered for, read off a log of
    engine calls. *)
Definition registered (cs : list EngineCall) : list ItemId :=
  flat_map (fun c => match c with OnProgress i => [i] | _ => [] end) cs.

(** What processNext has called before it makes the call [c]: [seen] are
    the calls made so far, [started] the ids processNext was called on. *)
Definition justifiedIn (started : list ItemId) (seen : list EngineCall)
    (c : EngineCall) : Prop :=
  match c with
  | ArrayBuffer _ => True
  | WriteFile (InputName i) => In i started
  | WriteFile (OutputName _) => False
  | OnProgress i => In (WriteFile (InputName i)) seen
  | Exec a =>
      exists s i, a = args s (InputName i) (OutputName i)
                  /\ In (OnProgress i) seen
  | ReadFile (OutputName i) =>
      exists s, In (Exec (args s (InputName i) (OutputName i))) seen
  | ReadFile (InputName _) => False
  | DeleteFile (InputName i) => In (ReadFile (OutputName i)) seen
  | DeleteFile (OutputName i) => In (DeleteFile (InputName i)) seen
  end.

(** Every call of [cs] is justified by the calls before it. *)
Fixpoint wellOrdered (started : list ItemId) (seen cs : list EngineCall) : Prop :=
  match cs with
  | [] => True
  | c :: rest => justifiedIn started seen c /\ wellOrdered started (seen ++ [c]) rest
  end.

(** The call a suspended processNext waits for. *)
Definition awaited (cs : list EngineCall) (t : Task) : Prop :=
  match t_phase t with
  | AwaitArrayBuffer => In (ArrayBuffer (file (t_item t))) cs
  | AwaitWriteFile => In (WriteFile (InputName (id (t_item t)))) cs
  | AwaitExec =>
      In (Exec (args (t_settings t) (InputName (id (t_item t)))
                     (OutputName (id (t_item t))))) cs
  | AwaitReadFile => In (ReadFile (OutputName (id (t_item t)))) cs
  | AwaitDeleteInput => In (DeleteFile (InputName (id (t_item t)))) cs
  | AwaitDeleteOutput => In (DeleteFile (OutputName (id (t_item t)))) cs
  | Returned => True
  end.

(** The calls [resume] makes. *)
Definition newCalls (t : Task) (o : Outcome) : list EngineCall :=
  let i := id (t_item t) in
  match t_phase t, o with
  | AwaitDeleteInput, _ => [DeleteFile (OutputName i)]
  | AwaitArrayBuffer, Fulfilled _ => [WriteFile (InputName i)]
  | AwaitWriteFile, Fulfilled _ =>
      [OnProgress i; Exec (args (t_settings t) (InputName i) (OutputName i))]
  | AwaitExec, Fulfilled _ => [ReadFile (OutputName i)]
  | AwaitReadFile, Fulfilled _ => [DeleteFile (InputName i)]
  | _, _ => []
  end.

Definition protocol (w : World) : Prop :=
  wellOrdered (startedIds w) [] (calls w)
  /\ (forall t, In t (tasks w) -> awaited (calls w) t)
  /\ listeners w = registered (calls w).

(** ** The values a render hands to its closures

    The effect and the click handlers are closures of one render: they
    read the state variables as that render saw them, while [setQueue]
    with an updater and the counter ref work on the store as it is.
    [step] is the case where every closure belongs to a render of the
    present state; [stepIn] takes the render as it may be, older than
    the store. *)

Record Render : Set := {
  r_queue : Queue;
  r_running : bool;
  r_ready : bool;
  r_ffmpeg : bool;
  r_settings : Settings
}.

(** The render of the present state. *)
Definition renderOf (w : World) : Render :=
  {| r_queue := queue w; r_running := running w; r_ready := ready w;
     r_ffmpeg := ffmpeg w; r_settings := settings w |}.

(** The two guards and the selection, on the values of the render. *)
Definition selectIn (r : Render) : option Item :=
  if negb (r_ready r) || negb (r_ffmpeg r) then None
  else if negb (r_running r) then None
  else match findIndex isQueued (r_queue r) with
       | None => None
       | Some nextIndex => nth_error (r_queue r) nextIndex
       end.

(** [processNext()] of the effect of render [r], up to its first
    [await]: the item is picked in the queue of the render, the update
    goes to the store. *)
Definition processNextIn (r : Render) (w : World) : World :=
  match selectIn r with
  | None => w
  | Some item =>
      let w1 := setQueue (updateItem (id item) processingPatch) w in
      let w2 := call (ArrayBuffer (file item)) w1 in
      setTasks (tasks w2 ++ [ {| t_item := item; t_settings := r_settings r;
                                 t_phase := AwaitArrayBuffer |} ]) w2
  end.

(** An event whose closures belong to render [r].  The effect and the
    Skip button read the render; the other events do not. *)
Definition stepIn (r : Render) (e : Event) (w : World) : World :=
  match e with
  | Effect => processNextIn r w
  | ClickSkip i =>
      if existsb (fun it => ItemId_eqb (id it) i && skipShown it) (r_queue r)
      then setQueue (cancelItem i) w else w
  | _ => step e w
  end.

Definition runIn (res : list (Render * Event)) (w : World) : World :=
  fold_left (fun w re => stepIn (fst re) (snd re) w) res w.

(** A render shows items that were made before it. *)
Definition pastRender (r : Render) (w : World) : Prop :=
  forall it, In it (r_queue r) -> (snd (id it) < idCounter w)%nat.

Fixpoint pastRenders (res : list (Render * Event)) (w : World) : Prop :=
  match res with
  | [] => True
  | (r, e) :: rest => pastRender r w /\ pastRenders rest (stepIn r e w)
  end.



(** A done item has its output URL and an item in error its text. *)
Definition resultKept (it : Item) : Prop :=
  (status it = done -> outputUrl it <> None)
  /\ (status it = error -> err it <> None).

(** Sample: the settings are changed while the update of the first run
    of the effect is not rendered yet; the effect of the new render runs
    on the old queue. *)
Definition fastSettings : Settings :=
  {| selectedScale := None; crf := 30%Z; preset := "fast" |}.

Definition staleRender : Render := renderOf (run oneDropped initial).

Definition staleRenderFast : Render :=
  {| r_queue := r_queue staleRender; r_running := true; r_ready := true;
     r_ffmpeg := true; r_settings := fastSettings |}.

Definition startedTwice : list (Render * Event) :=
  [(staleRender, Effect); (staleRender, SetSettings fastSettings);
   (staleRenderFast, Effect)].

(** ** The percentage, in binary64

    The numbers of the progress handler are doubles.  A double is a
    [spec_float] of precision 53 and maximal exponent 1024, the product
    is [SFmul], and [Math.round] gives the integer nearest to the value
    of the double it is given, halves going up. *)

Definition F64mul (x y : spec_float) : spec_float := SFmul 53 1024 x y.

(** The double 100. *)
Definition hundred64 : spec_float := S754_finite false 7036874417766400 (-46).

(** [progress || 0]: [undefined], [NaN], [0] and [-0] are falsy. *)
Definition orZero64 (p : option spec_float) : spec_float :=
  match p with
  | Some (S754_zero _) | Some S754_nan | None => S754_zero false
  | Some x => x
  end.

(** The value of a finite double. *)
Definition valueOf (x : spec_float) : option Q :=
  match x with
  | S754_zero _ => Some 0%Q
  | S754_finite s m e =>
      Some (inject_Z (if s then Z.neg m else Z.pos m) * Qpower 2 e)%Q
  | S754_infinity _ | S754_nan => None
  end.

(** [(progress || 0) * 100] *)
Definition product64 (p : option spec_float) : spec_float :=
  F64mul (orZero64 p) hundred64.

(** [Math.round((progress || 0) * 100)], when it is an integer: the
    rounding of an infinite product is that infinity, which the
    [progress] field of the embedding has no value for. *)
Definition percent64 (p : option spec_float) : option Z :=
  option_map Math_round (valueOf (product64 p)).

(** [updateItem(item.id, { progress: v })] *)
Definition setProgressOf (i : ItemId) (v : Z) (q : Queue) : Queue :=
  updateItem i (mkPatch None None None None (Some v) None None) q.

(** The handler registered for item [i], on doubles. *)
Definition progressHandler64 (i : ItemId) (p : option spec_float) (q : Queue)
    : option Queue :=
  option_map (fun v => setProgressOf i v q) (percent64 p).

(** Some doubles: the binary64 values nearest to the decimals named. *)
Definition d_0_25 : spec_float := S754_finite false 4503599627370496 (-54).
Definition d_0_5 : spec_float := S754_finite false 4503599627370496 (-53).
Definition d_1 : spec_float := S754_finite false 4503599627370496 (-52).
Definition d_1_5 : spec_float := S754_finite false 6755399441055744 (-52).
Definition d_minus_0_5 : spec_float := S754_finite true 4503599627370496 (-53).
Definition d_0_015 : spec_float := S754_finite false 8646911284551352 (-59).
Definition d_1_004 : spec_float := S754_finite false 4521614025879978 (-52).
Definition d_1e22 : spec_float := S754_finite false 4768371582031250 21.

(** The calls of processNext are on items of the past, and an item a
    call was made on is not queued in the store. *)
Definition startedApart (w : World) : Prop :=
  (forall it, In it (queue w) -> (snd (id it) < idCounter w)%nat)
  /\ (forall t, In t (tasks w) -> (snd (id (t_item t)) < idCounter w)%nat)
  /\ (forall t it, In t (tasks w) -> In it (queue w) ->
        id it = id (t_item t) -> status it <> queued).

(** * Properties *)

(** ** Equality tests *)

Lemma Status_eqb_spec (a b : Status) : reflect (a = b) (Status_eqb a b).
Proof. destruct a, b; simpl; constructor; congruence. Qed.

Lemma ItemId_eqb_spec (a b : ItemId) : reflect (a = b) (ItemId_eqb a b).
Proof.
  destruct a as [t n], b as [t' n']; unfold ItemId_eqb; simpl.
  destruct (Z.eqb_spec t t'), (Nat.eqb_spec n n'); simpl;
    constructor; congruence.
Qed.

Lemma ItemId_eqb_refl (a : ItemId) : ItemId_eqb a a = true.
Proof. destruct (ItemId_eqb_spec a a); congruence. Qed.

Lemma ItemId_eqb_neq (a b : ItemId) : a <> b -> ItemId_eqb a b = false.
Proof. destruct (ItemId_eqb_spec a b); congruence. Qed.

(** ** The store: updateItem *)

Lemma spread_merged (it : Item) (patch : Patch) : mergedInto it patch (spread it patch).
Proof.
  destruct patch as [[?|] [?|] [?|] [?|] [?|] [?|] [?|]];
    repeat split; reflexivity.
Qed.

Lemma updateItem_length i patch prev :
  List.length (updateItem i patch prev) = List.length prev.
Proof. apply length_map. Qed.

Lemma updateItem_nth i patch prev n :
  nth_error (updateItem i patch prev) n =
  option_map (fun it => if ItemId_eqb (id it) i then spread it patch else it)
             (nth_error prev n).
Proof. unfold updateItem. apply nth_error_map. Qed.

Lemma updateItem_absent i patch prev :
  (forall it, In it prev -> id it <> i) -> updateItem i patch prev = prev.
Proof.
  induction prev as [|x prev IH]; intros H; simpl; [reflexivity|].
  rewrite ItemId_eqb_neq by (apply H; left; reflexivity).
  f_equal. apply IH. intros it Hin. apply H. right. exact Hin.
Qed.


Lemma updateItem_ids i patch q :
  p_id patch = None -> map id (updateItem i patch q) = map id q.
Proof.
  intros Hp. unfold updateItem. rewrite map_map. apply map_ext.
  intros it. destruct (ItemId_eqb (id it) i); [|reflexivity].
  simpl. rewrite Hp. reflexivity.
Qed.

Lemma updateItem_In i patch q it' :
  In it' (updateItem i patch q) ->
  exists it, In it q
    /\ it' = if ItemId_eqb (id it) i then spread it patch else it.
Proof.
  unfold updateItem. rewrite in_map_iff. intros (it & <- & Hin).
  exists it. split; [exact Hin|reflexivity].
Qed.

(** C8. [updateItem] merges the patch into every item whose id matches:
    the store keeps its length, the item at each position is the one
    that was there, merged with the patch when its id is the given one
    and untouched otherwise, and a store without the id is returned as
    it is.  The operation is a total function: it has a result for every
    id, patch and store. *)
Theorem updateItem_merges_and_frames (i : ItemId) (patch : Patch) (prev : Queue) :
  List.length (updateItem i patch prev) = List.length prev
  /\ (forall n, nth_error prev n = None ->
        nth_error (updateItem i patch prev) n = None)
  /\ (forall n it, nth_error prev n = Some it -> id it = i ->
        exists it', nth_error (updateItem i patch prev) n = Some it'
                    /\ mergedInto it patch it')
  /\ (forall n it, nth_error prev n = Some it -> id it <> i ->
        nth_error (updateItem i patch prev) n = Some it)
  /\ ((forall it, In it prev -> id it <> i) -> updateItem i patch prev = prev).
Proof.
  split; [apply updateItem_length|].
  split; [intros n Hn; rewrite updateItem_nth, Hn; reflexivity|].
  split.
  { intros n it Hn Hid. exists (spread it patch). split.
    - rewrite updateItem_nth, Hn. simpl. subst i.
      rewrite ItemId_eqb_refl. reflexivity.
    - apply spread_merged. }
  split.
  { intros n it Hn Hid. rewrite updateItem_nth, Hn. simpl.
    rewrite ItemId_eqb_neq by exact Hid. reflexivity. }
  apply updateItem_absent.
Qed.

(** ** The store: clearFinished *)

Lemma keptByClear_spec it :
  keptByClear it = true <-> status it <> done /\ status it <> error.
Proof.
  unfold keptByClear. rewrite andb_true_iff, !negb_true_iff.
  destruct (Status_eqb_spec (status it) done), (Status_eqb_spec (status it) error);
    intuition congruence.
Qed.

Lemma filter_Subsequence {A : Type} (f : A -> bool) (q : list A) :
  Subsequence (filter f q) q.
Proof.
  induction q as [|x q IH]; simpl; [constructor|].
  destruct (f x); constructor; exact IH.
Qed.

Lemma clearFinished_count q :
  (List.length (clearFinished q) + countStatus done q + countStatus error q
   = List.length q)%nat.
Proof.
  unfold clearFinished, countStatus.
  induction q as [|x q IH]; simpl; [reflexivity|].
  destruct (status x); simpl; lia.
Qed.

(** Witness of C8 on a store of two items. *)
Lemma updateItem_merges_and_frames_witness :
  nth_error (updateItem clipId processingPatch
               [clipItem queued 7; talkItem queued 0]) 1
  = Some (talkItem queued 0)
  /\ updateItem (0%Z, 5%nat) processingPatch [clipItem queued 7; talkItem queued 0]
     = [clipItem queued 7; talkItem queued 0].
Proof.
  destruct (updateItem_merges_and_frames clipId processingPatch
              [clipItem queued 7; talkItem queued 0]) as (_ & _ & _ & Hother & _).
  destruct (updateItem_merges_and_frames (0%Z, 5%nat) processingPatch
              [clipItem queued 7; talkItem queued 0]) as (_ & _ & _ & _ & Habsent).
  split.
  - apply Hother; [reflexivity | discriminate].
  - apply Habsent. intros it [<-|[<-|[]]]; discriminate.
Defined.

(** C4, as stated, fails: a skipped item survives [clearFinished]. *)
Lemma clearFinished_keeps_skipped :
  status (clipItem skipped 0) = skipped
  /\ In (clipItem skipped 0) (clearFinished [clipItem skipped 0; talkItem done 100])
  /\ clearFinished [clipItem skipped 0; talkItem done 100] = [clipItem skipped 0].
Proof. repeat split. left. reflexivity. Qed.

(** C4, amended. [clearFinished] removes exactly the items whose status
    is done or error, skipped items staying: an item is in the result if
    and only if it was in the store with another status than these two,
    as many items are removed as had one of the two, and the result is
    the store with items left out, the others in their order. *)
Theorem clearFinished_removes_done_and_error (q : Queue) :
  (forall it, In it (clearFinished q) <->
              In it q /\ status it <> done /\ status it <> error)
  /\ (List.length (clearFinished q) + countStatus done q + countStatus error q
      = List.length q)%nat
  /\ Subsequence (clearFinished q) q.
Proof.
  split; [|split].
  - intros it. unfold clearFinished. rewrite filter_In.
    fold (keptByClear it). rewrite keptByClear_spec. reflexivity.
  - apply clearFinished_count.
  - apply filter_Subsequence.
Qed.

(** ** Selection *)


Lemma findIndex_Some pred q n :
  findIndex pred q = Some n ->
  exists pre item post,
    q = pre ++ item :: post /\ List.length pre = n
    /\ (forall x, In x pre -> pred x = false) /\ pred item = true
    /\ nth_error q n = Some item.
Proof.
  revert n. induction q as [|x q IH]; simpl; intros n H; [discriminate|].
  destruct (pred x) eqn:Hx.
  - injection H as <-. exists [], x, q. repeat split; try assumption.
    intros y [].
  - destruct (findIndex pred q) as [m|]; [|discriminate].
    injection H as <-.
    destruct (IH m eq_refl) as (pre & item & post & -> & Hlen & Hpre & Hit & Hnth).
    exists (x :: pre), item, post. simpl. repeat split; try assumption.
    + f_equal. exact Hlen.
    + intros y [<-|Hy]; [exact Hx|apply Hpre; exact Hy].
Qed.

Lemma isQueued_true it : isQueued it = true <-> status it = queued.
Proof. unfold isQueued. destruct (Status_eqb_spec (status it) queued); intuition congruence. Qed.


Lemma selectNext_idle_flags w :
  running w = false \/ ready w = false \/ ffmpeg w = false -> selectNext w = None.
Proof.
  unfold selectNext. intros [H|[H|H]]; rewrite H; simpl;
    destruct (ready w), (ffmpeg w); reflexivity.
Qed.




Lemma processNext_idle w : selectNext w = None -> processNext w = w.
Proof. unfold processNext. intros ->. reflexivity. Qed.

Lemma processNext_starts w item :
  selectNext w = Some item ->
  queue (processNext w) = updateItem (id item) processingPatch (queue w)
  /\ tasks (processNext w) = tasks w ++ [newTask w item]
  /\ calls (processNext w) = calls w ++ [ArrayBuffer (file item)]
  /\ listeners (processNext w) = listeners w
  /\ running (processNext w) = running w
  /\ ready (processNext w) = ready w
  /\ ffmpeg (processNext w) = ffmpeg w.
Proof. unfold processNext. intros ->. repeat split. Qed.



Lemma run_Effects_cons n w :
  run (repeat Effect (S n)) w = run (repeat Effect n) (processNext w).
Proof. reflexivity. Qed.





(** ** One job at a time? *)


Lemma countStatus_cons s it q :
  countStatus s (it :: q)
  = ((if Status_eqb (status it) s then 1 else 0) + countStatus s q)%nat.
Proof. unfold countStatus. simpl. destruct (Status_eqb (status it) s); reflexivity. Qed.




(** ** Progress events *)

Lemma spread_progress it v :
  spread it (mkPatch None None None None (Some v) None None) = setProgress it v.
Proof. reflexivity. Qed.

Lemma progressHandler_nth i p q n :
  nth_error (progressHandler i p q) n
  = option_map (fun it => if ItemId_eqb (id it) i
                          then setProgress it (percent p) else it)
               (nth_error q n).
Proof. unfold progressHandler. rewrite updateItem_nth. reflexivity. Qed.

Lemma Math_round_nearest (x : Q) :
  (inject_Z (Math_round x) - (1 # 2) <= x /\ x < inject_Z (Math_round x) + (1 # 2))%Q.
Proof.
  unfold Math_round.
  pose proof (Qfloor_le (x + (1 # 2))) as Hle.
  pose proof (Qlt_floor (x + (1 # 2))) as Hlt.
  rewrite inject_Z_plus in Hlt. change (inject_Z 1) with 1%Q in Hlt.
  generalize dependent (inject_Z (Qfloor (x + (1 # 2)))). intros z Hle Hlt.
  split; lra.
Qed.

(** ** Resuming a suspended processNext *)

Lemma setPhase_nth k ph : forall ts t,
  nth_error ts k = Some t ->
  nth_error (setPhase k ph ts) k = Some (withPhase t ph).
Proof.
  induction k as [|k IH]; intros [|x ts] t H; simpl in *; try discriminate.
  - injection H as ->. reflexivity.
  - apply IH, H.
Qed.


Lemma settle_eq k o w t :
  nth_error (tasks w) k = Some t ->
  settle k o w
  = setTasks (setPhase k (snd (resume t o w)) (tasks (fst (resume t o w))))
             (fst (resume t o w)).
Proof.
  intros H. unfold settle. rewrite H. destruct (resume t o w). reflexivity.
Qed.

Lemma settle_no_task k o w : nth_error (tasks w) k = None -> settle k o w = w.
Proof. intros H. unfold settle. rewrite H. reflexivity. Qed.

Lemma resume_tasks t o w : tasks (fst (resume t o w)) = tasks w.
Proof. unfold resume. destruct (t_phase t), o; reflexivity. Qed.

(** What one resumption does, phase by phase. *)
Lemma settle_read_fulfilled k url w t :
  nth_error (tasks w) k = Some t -> t_phase t = AwaitReadFile ->
  queue (settle k (Fulfilled url) w)
  = updateItem (id (t_item t)) (donePatch url) (queue w)
  /\ calls (settle k (Fulfilled url) w)
     = calls w ++ [DeleteFile (InputName (id (t_item t)))]
  /\ nth_error (tasks (settle k (Fulfilled url) w)) k
     = Some (withPhase t AwaitDeleteInput).
Proof.
  intros Hk Hph. rewrite (settle_eq _ _ _ _ Hk). unfold resume. rewrite Hph. simpl.
  repeat split. apply setPhase_nth, Hk.
Qed.

Lemma settle_delete_input k o w t :
  nth_error (tasks w) k = Some t -> t_phase t = AwaitDeleteInput ->
  queue (settle k o w) = queue w
  /\ calls (settle k o w) = calls w ++ [DeleteFile (OutputName (id (t_item t)))]
  /\ nth_error (tasks (settle k o w)) k = Some (withPhase t AwaitDeleteOutput).
Proof.
  intros Hk Hph. rewrite (settle_eq _ _ _ _ Hk). unfold resume. rewrite Hph.
  destruct o; simpl; repeat split; apply setPhase_nth, Hk.
Qed.

Lemma settle_delete_output k o w t :
  nth_error (tasks w) k = Some t -> t_phase t = AwaitDeleteOutput ->
  queue (settle k o w) = queue w
  /\ calls (settle k o w) = calls w
  /\ nth_error (tasks (settle k o w)) k = Some (withPhase t Returned).
Proof.
  intros Hk Hph. rewrite (settle_eq _ _ _ _ Hk). unfold resume. rewrite Hph.
  destruct o; simpl; repeat split; apply setPhase_nth, Hk.
Qed.

Lemma settle_rejected k e w t :
  nth_error (tasks w) k = Some t ->
  t_phase t = AwaitArrayBuffer \/ t_phase t = AwaitWriteFile
  \/ t_phase t = AwaitExec \/ t_phase t = AwaitReadFile ->
  queue (settle k (Rejected e) w)
  = updateItem (id (t_item t)) (errorPatch e) (queue w)
  /\ calls (settle k (Rejected e) w) = calls w
  /\ nth_error (tasks (settle k (Rejected e) w)) k = Some (withPhase t Returned).
Proof.
  intros Hk Hph. rewrite (settle_eq _ _ _ _ Hk). unfold resume.
  destruct Hph as [H|[H|[H|H]]]; rewrite H; simpl; repeat split;
    apply setPhase_nth, Hk.
Qed.

(** ** Cleanup *)

(** C5, as stated, fails: an execution that ends in error deletes
    nothing; here [exec] rejects, the item gets status error and no
    [deleteFile] is ever called. *)
Lemma no_cleanup_after_error :
  let w := play (oneDropped ++ [Settle 0 anyUrl; Settle 0 anyUrl;
                                Settle 0 (Rejected failure)]) initial in
  map status (queue w) = [error]
  /\ map err (queue w) = [Some "exec failed"%string]
  /\ phaseOf 0 w = Some Returned
  /\ existsb isDeleteFile (calls w) = false.
Proof. repeat split. Qed.

(** C5, amended. An execution that ends in done is followed by the two
    deletions: once [readFile] is through, the item is marked done and
    [deleteFile] is called on the input name; however that call settles,
    [deleteFile] is called on the output name; however that one settles,
    processNext returns.  Neither settlement changes the store. *)
Theorem cleanup_after_done (w : World) (k : nat) (t : Task)
    (url : string) (o1 o2 : Outcome) :
  nth_error (tasks w) k = Some t ->
  t_phase t = AwaitReadFile ->
  let i := id (t_item t) in
  let w1 := step (Settle k (Fulfilled url)) w in
  let w2 := step (Settle k o1) w1 in
  let w3 := step (Settle k o2) w2 in
  queue w1 = updateItem i (donePatch url) (queue w)
  /\ calls w1 = calls w ++ [DeleteFile (InputName i)]
  /\ phaseOf k w1 = Some AwaitDeleteInput
  /\ queue w2 = queue w1
  /\ calls w2 = calls w1 ++ [DeleteFile (OutputName i)]
  /\ phaseOf k w2 = Some AwaitDeleteOutput
  /\ queue w3 = queue w1
  /\ calls w3 = calls w2
  /\ phaseOf k w3 = Some Returned.
Proof.
  intros Hk Hph i w1 w2 w3. subst w1 w2 w3. simpl step.
  destruct (settle_read_fulfilled k url w t Hk Hph) as (Hq1 & Hc1 & Ht1).
  destruct (settle_delete_input k o1 _ _ Ht1 eq_refl) as (Hq2 & Hc2 & Ht2).
  destruct (settle_delete_output k o2 _ _ Ht2 eq_refl) as (Hq3 & Hc3 & Ht3).
  unfold phaseOf. rewrite Ht1, Ht2, Ht3, Hq3, Hq2, Hc3, Hc2, Hc1, Hq1.
  repeat split.
Qed.

Lemma cleanup_after_done_witness :
  let w := play (oneDropped ++ [Settle 0 anyUrl; Settle 0 anyUrl;
                                Settle 0 anyUrl]) initial in
  let w3 := run [Settle 0 anyUrl; Settle 0 (Rejected failure);
                 Settle 0 (Rejected failure)] w in
  queue w3 = updateItem clipId (donePatch "blob:1") (queue w)
  /\ phaseOf 0 w3 = Some Returned.
Proof.
  intros w w3.
  destruct (cleanup_after_done w 0 _ "blob:1"
              (Rejected failure) (Rejected failure) eq_refl eq_refl)
    as (Hq1 & _ & _ & _ & _ & _ & Hq3 & _ & Hp3).
  split.
  - etransitivity; [exact Hq3 | exact Hq1].
  - exact Hp3.
Defined.

(** ** The progress listeners *)

Lemma emitProgress_queue p ls q :
  fold_left (fun q i => progressHandler i p q) ls q
  = map (fun it => if subscribed ls it then setProgress it (percent p) else it) q.
Proof.
  revert q. induction ls as [|a ls IH]; intros q; simpl.
  - symmetry. apply map_id.
  - rewrite IH. unfold progressHandler, updateItem. rewrite map_map.
    apply map_ext. intros it. unfold subscribed. simpl.
    destruct (ItemId_eqb (id it) a) eqn:Ha; simpl.
    + rewrite spread_progress. destruct (existsb _ ls); reflexivity.
    + reflexivity.
Qed.

Lemma subscribed_In ls it : subscribed ls it = true <-> In (id it) ls.
Proof.
  unfold subscribed. rewrite existsb_exists. split.
  - intros (i & Hin & Heq). destruct (ItemId_eqb_spec (id it) i); congruence.
  - intros Hin. exists (id it). split; [exact Hin|apply ItemId_eqb_refl].
Qed.

Lemma resume_listeners t o w :
  exists more, listeners (fst (resume t o w)) = listeners w ++ more.
Proof.
  unfold resume. destruct (t_phase t), o; simpl;
    try (exists []; rewrite app_nil_r; reflexivity).
  eexists. reflexivity.
Qed.

Lemma step_listeners e w :
  exists more, listeners (step e w) = listeners w ++ more.
Proof.
  destruct e; simpl; try (exists []; rewrite app_nil_r; reflexivity).
  - unfold processNext. destruct (selectNext w); simpl;
      exists []; rewrite app_nil_r; reflexivity.
  - unfold settle. destruct (nth_error (tasks w) k) as [t|].
    + destruct (resume_listeners t o w) as (more & Hm).
      destruct (resume t o w) as [w' ph]. simpl in *. exists more. exact Hm.
    + exists []. rewrite app_nil_r. reflexivity.
  - destruct (existsb _ (queue w)); exists []; rewrite app_nil_r; reflexivity.
Qed.

Lemma run_cons e es w : run (e :: es) w = run es (step e w).
Proof. reflexivity. Qed.

Lemma run_app es1 es2 w : run (es1 ++ es2) w = run es2 (run es1 w).
Proof. unfold run. apply fold_left_app. Qed.

Lemma run_listeners es : forall w,
  exists more, listeners (run es w) = listeners w ++ more.
Proof.
  induction es as [|e es IH]; intros w.
  - exists []. rewrite app_nil_r. reflexivity.
  - destruct (IH (step e w)) as (m2 & H2).
    destruct (step_listeners e w) as (m1 & H1).
    exists (m1 ++ m2). rewrite run_cons, H2, H1, app_assoc. reflexivity.
Qed.

(** C3, as stated, fails: a first file is compressed to the end, then a
    second one is dropped and its execution begins.  The handler of the
    first item is still registered, and a progress event of the second
    execution rewrites the progress of the first, finished, item. *)
Lemma progress_reaches_finished_item :
  let w := play (oneDropped ++ sixFulfilled
                 ++ [AddFiles [(laterDrop, talkFile)]; Settle 1 anyUrl; Settle 1 anyUrl])
                initial in
  map status (queue w) = [done; processing]
  /\ map progress (queue w) = [100%Z; 0%Z]
  /\ map t_phase (tasks w) = [Returned; AwaitExec]
  /\ listeners w = [clipId; lateTalkId]
  /\ map progress (queue (dispatch (Progress (Some (1 # 2))) w)) = [50%Z; 50%Z].
Proof. repeat split. Qed.

(** C3, amended. The progress handler registered for an execution is
    never removed: no event takes a handler away, so the handlers of all
    the executions that got as far as [exec] stay registered, and a
    progress event sets the progress of every item that has a handler,
    the one being executed and the earlier ones alike, and of no other. *)
Theorem progress_listeners_accumulate (w : World) :
  (forall e, exists more, listeners (step e w) = listeners w ++ more)
  /\ (forall es, exists more, listeners (run es w) = listeners w ++ more)
  /\ (forall k t url,
        nth_error (tasks w) k = Some t -> t_phase t = AwaitWriteFile ->
        listeners (step (Settle k (Fulfilled url)) w)
        = listeners w ++ [id (t_item t)])
  /\ (forall p n it, nth_error (queue w) n = Some it ->
        nth_error (queue (step (Progress p) w)) n
        = Some (if subscribed (listeners w) it
                then setProgress it (percent p) else it)).
Proof.
  split; [|split; [|split]].
  - intros e. apply step_listeners.
  - intros es. apply run_listeners.
  - intros k t url Hk Hph. simpl. rewrite (settle_eq _ _ _ _ Hk).
    unfold resume. rewrite Hph. reflexivity.
  - intros p n it Hn. simpl. unfold emitProgress. simpl.
    rewrite emitProgress_queue, nth_error_map, Hn. reflexivity.
Qed.

Lemma progress_listeners_accumulate_witness :
  nth_error (queue (step (Progress (Some (1 # 2)))
                      (play (oneDropped ++ sixFulfilled
                             ++ [AddFiles [(laterDrop, talkFile)];
                                 Settle 1 anyUrl; Settle 1 anyUrl]) initial))) 0
  = Some (setProgress
            (spread (clipItem queued 0) (donePatch "blob:1")) 50).
Proof.
  destruct (progress_listeners_accumulate
              (play (oneDropped ++ sixFulfilled
                     ++ [AddFiles [(laterDrop, talkFile)];
                         Settle 1 anyUrl; Settle 1 anyUrl]) initial))
    as (_ & _ & _ & H).
  refine (eq_trans (H (Some (1 # 2)) 0%nat
                      (spread (clipItem queued 0) (donePatch "blob:1")) _) _);
    vm_compute; reflexivity.
Defined.

(** ** Once finished, always finished? *)

Lemma resume_queue t o w :
  queue (fst (resume t o w))
  = match nextPatch (t_phase t) o with
    | Some patch => updateItem (id (t_item t)) patch (queue w)
    | None => queue w
    end.
Proof. unfold resume. destruct (t_phase t), o; reflexivity. Qed.

Lemma resume_phase t o w : snd (resume t o w) = nextPhase (t_phase t) o.
Proof. unfold resume. destruct (t_phase t), o; reflexivity. Qed.

Lemma resume_idCounter t o w : idCounter (fst (resume t o w)) = idCounter w.
Proof. unfold resume. destruct (t_phase t), o; reflexivity. Qed.

Lemma settle_queue k o w t :
  nth_error (tasks w) k = Some t ->
  queue (settle k o w)
  = match nextPatch (t_phase t) o with
    | Some patch => updateItem (id (t_item t)) patch (queue w)
    | None => queue w
    end.
Proof. intros Hk. rewrite (settle_eq _ _ _ _ Hk). simpl. apply resume_queue. Qed.

Lemma settle_tasks k o w t :
  nth_error (tasks w) k = Some t ->
  tasks (settle k o w) = setPhase k (nextPhase (t_phase t) o) (tasks w).
Proof.
  intros Hk. rewrite (settle_eq _ _ _ _ Hk). simpl.
  rewrite resume_phase, resume_tasks. reflexivity.
Qed.

Lemma settle_idCounter k o w : idCounter (settle k o w) = idCounter w.
Proof.
  destruct (nth_error (tasks w) k) as [t|] eqn:Hk.
  - rewrite (settle_eq _ _ _ _ Hk). simpl. apply resume_idCounter.
  - rewrite (settle_no_task _ _ _ Hk). reflexivity.
Qed.

Lemma nextPatch_written ph o patch :
  nextPatch ph o = Some patch ->
  p_id patch = None
  /\ (p_status patch = Some done \/ p_status patch = Some error)
  /\ pastRead ph = false
  /\ pastRead (nextPhase ph o) = true.
Proof.
  destruct ph, o; simpl; intros H; try discriminate; injection H as <-;
    repeat split; auto.
Qed.

Lemma nextPhase_pastRead ph o :
  pastRead ph = true -> nextPatch ph o = None /\ pastRead (nextPhase ph o) = true.
Proof. destruct ph, o; simpl; intros H; try discriminate; split; reflexivity. Qed.

Lemma setPhase_In k ph : forall ts t',
  In t' (setPhase k ph ts) ->
  (exists j, j <> k /\ nth_error ts j = Some t')
  \/ (exists t, nth_error ts k = Some t /\ t' = withPhase t ph).
Proof.
  induction k as [|k IH]; intros [|x ts] t' H; simpl in H; try contradiction.
  - destruct H as [<-|H].
    + right. exists x. split; reflexivity.
    + left. apply In_nth_error in H. destruct H as [j Hj].
      exists (S j). split; [discriminate|exact Hj].
  - destruct H as [<-|H].
    + left. exists 0%nat. split; [discriminate|reflexivity].
    + destruct (IH ts t' H) as [(j & Hne & Hj)|(t & Hk & ->)].
      * left. exists (S j). split; [congruence|exact Hj].
      * right. exists t. split; [exact Hk|reflexivity].
Qed.

(** A patch that carries no id leaves the items of another id alone and
    gives its status to the items of the id it is applied to. *)
Lemma updateItem_status i patch q it' :
  p_id patch = None ->
  In it' (updateItem i patch q) ->
  exists it, In it q /\ id it' = id it
    /\ (id it <> i -> it' = it)
    /\ (id it = i -> status it' = or_else (p_status patch) (status it)).
Proof.
  intros Hp Hin. apply updateItem_In in Hin. destruct Hin as (it & Hin & ->).
  exists it. split; [exact Hin|].
  destruct (ItemId_eqb_spec (id it) i) as [Heq|Hne].
  - split; [simpl; rewrite Hp; reflexivity|].
    split; [contradiction|reflexivity].
  - split; [reflexivity|]. split; [reflexivity|contradiction].
Qed.

Lemma newItems_In : forall files counter it,
  In it (newItems counter files) ->
  status it = queued
  /\ (counter <= snd (id it) < counter + List.length files)%nat.
Proof.
  induction files as [|[now f] files IH]; intros counter it H; simpl in H;
    [contradiction|].
  destruct H as [<-|H]; simpl.
  - split; [reflexivity|lia].
  - destruct (IH _ _ H) as (Hs & Hc). split; [exact Hs|lia].
Qed.

Lemma skipShown_terminal it :
  status it = done \/ status it = error \/ status it = skipped ->
  skipShown it = false.
Proof. unfold skipShown. intros [-> | [-> | ->]]; reflexivity. Qed.

Lemma selectNext_In w item :
  selectNext w = Some item -> In item (queue w) /\ status item = queued.
Proof.
  unfold selectNext.
  destruct (negb (ready w) || negb (ffmpeg w)); [discriminate|].
  destruct (negb (running w)); [discriminate|].
  destruct (findIndex isQueued (queue w)) as [n|] eqn:Hfi; [|discriminate].
  destruct (findIndex_Some _ _ _ Hfi) as (pre & item' & post & Hq & _ & _ & Hit & Hnth).
  intros H. rewrite Hnth in H. injection H as <-. split.
  - rewrite Hq. apply in_or_app. right. left. reflexivity.
  - apply isQueued_true, Hit.
Qed.

Lemma emitProgress_In p w it' :
  In it' (queue (emitProgress p w)) ->
  exists it, In it (queue w) /\ id it' = id it /\ status it' = status it.
Proof.
  unfold emitProgress. simpl. rewrite emitProgress_queue, in_map_iff.
  intros (it & <- & Hin). exists it. split; [exact Hin|].
  destruct (subscribed (listeners w) it); split; reflexivity.
Qed.

(** A settled status survives every event. *)
Lemma stable_step i s e w :
  s = done \/ s = error \/ s = skipped ->
  stable i s w -> stable i s (step e w).
Proof.
  intros Hs (Hc & Hq & Ht). destruct e; simpl.
  - (* Effect *)
    destruct (selectNext w) as [item|] eqn:Hsel;
      [|rewrite (processNext_idle _ Hsel); repeat split; assumption].
    destruct (selectNext_In _ _ Hsel) as (Hin & Hst).
    assert (Hne : id item <> i).
    { intros Heq. rewrite (Hq _ Hin Heq) in Hst.
      destruct Hs as [-> | [-> | ->]]; discriminate. }
    destruct (processNext_starts _ _ Hsel) as (Hq' & Ht' & _).
    unfold stable, settledFor. rewrite Hq', Ht'.
    split; [unfold processNext; rewrite Hsel; exact Hc|split].
    + intros it' Hin' Hid.
      destruct (updateItem_status (id item) processingPatch _ _ eq_refl Hin')
        as (it & Hit & Hid' & Hsame & _).
      rewrite Hsame by congruence. apply Hq; congruence.
    + intros t Hint Hid. apply in_app_or in Hint. destruct Hint as [Hint|[<-|[]]].
      * apply Ht; assumption.
      * simpl in Hid. contradiction.
  - (* Settle *)
    destruct (nth_error (tasks w) k) as [t|] eqn:Hk;
      [|rewrite (settle_no_task _ _ _ Hk); repeat split; assumption].
    unfold stable, settledFor.
    rewrite settle_idCounter, (settle_queue _ _ _ _ Hk), (settle_tasks _ _ _ _ Hk).
    split; [exact Hc|].
    destruct (ItemId_eqb_spec (id (t_item t)) i) as [Heq|Hne].
    + pose proof (Ht t (nth_error_In _ _ Hk) Heq) as Hpast.
      destruct (nextPhase_pastRead _ o Hpast) as (Hnone & Hnext).
      rewrite Hnone. split; [exact Hq|].
      intros t' Hin' Hid.
      destruct (setPhase_In _ _ _ _ Hin') as [(j & _ & Hj)|(t0 & Hk0 & ->)].
      * apply Ht; [apply (nth_error_In _ _ Hj)|exact Hid].
      * rewrite Hk in Hk0. injection Hk0 as <-. exact Hnext.
    + split.
      * destruct (nextPatch (t_phase t) o) as [patch|] eqn:Hp; [|exact Hq].
        destruct (nextPatch_written _ _ _ Hp) as (Hpid & _).
        intros it' Hin' Hid.
        destruct (updateItem_status _ _ _ _ Hpid Hin') as (it & Hit & Hid' & Hsame & _).
        rewrite Hsame by congruence. apply Hq; congruence.
      * intros t' Hin' Hid.
        destruct (setPhase_In _ _ _ _ Hin') as [(j & _ & Hj)|(t0 & Hk0 & ->)].
        -- apply Ht; [apply (nth_error_In _ _ Hj)|exact Hid].
        -- rewrite Hk in Hk0. injection Hk0 as <-. simpl in Hid. contradiction.
  - (* Progress *)
    split; [exact Hc|split; [|exact Ht]].
    intros it' Hin' Hid.
    destruct (emitProgress_In _ _ _ Hin') as (it & Hit & Hid' & ->).
    apply Hq; congruence.
  - (* ClickSkip *)
    destruct (existsb _ (queue w)) eqn:Hex; [|repeat split; assumption].
    apply existsb_exists in Hex. destruct Hex as (it0 & Hin0 & Hsk).
    apply andb_true_iff in Hsk. destruct Hsk as (Hid0 & Hshown).
    destruct (ItemId_eqb_spec (id it0) i0) as [Heq0|]; [|discriminate].
    assert (Hne : i0 <> i).
    { intros ->. pose proof (Hq _ Hin0 Heq0) as Hst.
      rewrite skipShown_terminal in Hshown; [discriminate|].
      rewrite Hst. exact Hs. }
    split; [exact Hc|split; [|exact Ht]].
    intros it' Hin' Hid. simpl in Hin'. unfold cancelItem in Hin'.
    apply updateItem_status in Hin'; [|reflexivity].
    destruct Hin' as (it & Hit & Hid' & Hsame & _).
    rewrite Hsame by congruence. apply Hq; congruence.
  - (* ClickClear *)
    split; [exact Hc|split; [|exact Ht]].
    intros it' Hin' Hid. simpl in Hin'. unfold clearFinished in Hin'.
    apply filter_In in Hin'. apply Hq; [apply Hin'|exact Hid].
  - (* AddFiles *)
    split; [simpl; lia|split; [|exact Ht]].
    intros it' Hin' Hid. simpl in Hin'. unfold addFiles in Hin'.
    apply in_app_or in Hin'. destruct Hin' as [Hin'|Hin'].
    + apply Hq; assumption.
    + apply newItems_In in Hin'. destruct Hin' as (_ & Hlo & _).
      rewrite Hid in Hlo. lia.
  - repeat split; assumption.
  - repeat split; assumption.
  - repeat split; assumption.
Qed.

Lemma stable_run i s es : forall w,
  s = done \/ s = error \/ s = skipped ->
  stable i s w -> stable i s (run es w).
Proof.
  induction es as [|e es IH]; intros w Hs Hst; [exact Hst|].
  rewrite run_cons. apply IH; [exact Hs|]. apply stable_step; assumption.
Qed.

(** ** The invariant of the component *)

Lemma Inv_initial : Inv initial.
Proof.
  constructor; simpl; try (intros; contradiction); constructor.
Qed.

Lemma startedIds_setPhase k ph ts :
  map (fun t => id (t_item t)) (setPhase k ph ts)
  = map (fun t => id (t_item t)) ts.
Proof.
  revert k. induction ts as [|x ts IH]; intros [|k]; simpl; try reflexivity.
  f_equal. apply IH.
Qed.

Lemma setPhase_In_item k ph ts t' :
  In t' (setPhase k ph ts) -> exists t, In t ts /\ t_item t' = t_item t.
Proof.
  intros H. destruct (setPhase_In _ _ _ _ H) as [(j & _ & Hj)|(t & Hk & ->)].
  - exists t'. split; [apply (nth_error_In _ _ Hj)|reflexivity].
  - exists t. split; [apply (nth_error_In _ _ Hk)|reflexivity].
Qed.

Lemma NoDup_map_filter {A B : Type} (f : A -> B) (g : A -> bool) (l : list A) :
  NoDup (map f l) -> NoDup (map f (filter g l)).
Proof.
  induction l as [|x l IH]; simpl; intros H; [constructor|].
  apply NoDup_cons_iff in H. destruct H as (Hx & Hl).
  destruct (g x); [|apply IH, Hl]. simpl. constructor; [|apply IH, Hl].
  intros Hin. apply Hx. apply in_map_iff in Hin.
  destruct Hin as (y & Hy & Hiny). apply filter_In in Hiny.
  apply in_map_iff. exists y. split; [exact Hy|apply Hiny].
Qed.

Lemma newItems_ids_NoDup : forall files counter,
  NoDup (map id (newItems counter files)).
Proof.
  induction files as [|[now f] files IH]; intros counter; simpl; constructor.
  - intros Hin. apply in_map_iff in Hin. destruct Hin as (it & Hid & Hin).
    apply newItems_In in Hin. destruct Hin as (_ & Hlo & _).
    rewrite Hid in Hlo. simpl in Hlo. lia.
  - apply IH.
Qed.

(** Two tasks on the same item are one task. *)
Lemma once_same_task w j k tj tk :
  NoDup (startedIds w) ->
  nth_error (tasks w) j = Some tj -> nth_error (tasks w) k = Some tk ->
  id (t_item tj) = id (t_item tk) -> j = k.
Proof.
  intros Hnd Hj Hk Heq.
  apply (proj1 (NoDup_nth_error (startedIds w)) Hnd).
  - unfold startedIds. rewrite length_map. apply nth_error_Some. congruence.
  - unfold startedIds. rewrite !nth_error_map, Hj, Hk. simpl. congruence.
Qed.

Lemma emitProgress_ids p w : map id (queue (emitProgress p w)) = map id (queue w).
Proof.
  unfold emitProgress. simpl. rewrite emitProgress_queue, map_map.
  apply map_ext. intros it. destruct (subscribed (listeners w) it); reflexivity.
Qed.

Lemma Inv_processNext w : Inv w -> Inv (processNext w).
Proof.
  intros [Hids Hfresh Htf Honce Hst Hfin].
  destruct (selectNext w) as [item|] eqn:Hsel;
    [|rewrite (processNext_idle _ Hsel); constructor; assumption].
  destruct (selectNext_In _ _ Hsel) as (Hin & Hq).
  destruct (processNext_starts _ _ Hsel) as (Hq' & Ht' & _).
  assert (Hc' : idCounter (processNext w) = idCounter w)
    by (unfold processNext; rewrite Hsel; reflexivity).
  assert (Hnew : ~ In (id item) (startedIds w)).
  { intros H. apply in_map_iff in H. destruct H as (t & Hid & Hint).
    apply (Hst t item Hint Hin); [symmetry; exact Hid|exact Hq]. }
  constructor; unfold startedIds; rewrite ?Hq', ?Ht', ?Hc'.
  - rewrite updateItem_ids by reflexivity. exact Hids.
  - intros it' Hin'.
    destruct (updateItem_status (id item) processingPatch _ _ eq_refl Hin')
      as (it & Hit & Hid & _).
    rewrite Hid. apply Hfresh, Hit.
  - intros t Hint. apply in_app_or in Hint. destruct Hint as [Hint|[<-|[]]].
    + apply Htf, Hint.
    + simpl. apply Hfresh, Hin.
  - rewrite map_app. simpl. apply NoDup_app; [exact Honce|repeat constructor; intros []|].
    intros a Ha [<-|[]]. apply Hnew, Ha.
  - intros t it' Hint Hin' Hid.
    destruct (updateItem_status (id item) processingPatch _ _ eq_refl Hin')
      as (it & Hit & Hid' & Hsame & Hupd).
    destruct (ItemId_eqb_spec (id it) (id item)) as [Heq|Hne].
    + rewrite (Hupd Heq). discriminate.
    + rewrite (Hsame Hne) in *.
      apply in_app_or in Hint. destruct Hint as [Hint|[<-|[]]].
      * apply (Hst t it Hint Hit Hid).
      * simpl in Hid. contradiction.
  - intros t it' Hint Hin' Hid Hdone.
    destruct (updateItem_status (id item) processingPatch _ _ eq_refl Hin')
      as (it & Hit & Hid' & Hsame & Hupd).
    destruct (ItemId_eqb_spec (id it) (id item)) as [Heq|Hne].
    + rewrite (Hupd Heq) in Hdone. destruct Hdone; discriminate.
    + rewrite (Hsame Hne) in *.
      apply in_app_or in Hint. destruct Hint as [Hint|[<-|[]]].
      * apply (Hfin t it Hint Hit Hid Hdone).
      * simpl in Hid. contradiction.
Qed.

Lemma Inv_settle k o w : Inv w -> Inv (settle k o w).
Proof.
  intros [Hids Hfresh Htf Honce Hst Hfin].
  destruct (nth_error (tasks w) k) as [t|] eqn:Hk;
    [|rewrite (settle_no_task _ _ _ Hk); constructor; assumption].
  pose proof (settle_queue k o w t Hk) as Hq'.
  pose proof (settle_tasks k o w t Hk) as Ht'.
  pose proof (settle_idCounter k o w) as Hc'.
  destruct (nextPatch (t_phase t) o) as [patch|] eqn:Hp.
  - destruct (nextPatch_written _ _ _ Hp) as (Hpid & Hpst & Hnot & Hnext).
    constructor; unfold startedIds; rewrite ?Hq', ?Ht', ?Hc'.
    + rewrite updateItem_ids by exact Hpid. exact Hids.
    + intros it' Hin'.
      destruct (updateItem_status _ _ _ _ Hpid Hin') as (it & Hit & Hid & _).
      rewrite Hid. apply Hfresh, Hit.
    + intros t' Hin'. destruct (setPhase_In_item _ _ _ _ Hin') as (tb & Htb & ->).
      apply Htf, Htb.
    + rewrite startedIds_setPhase. exact Honce.
    + intros t' it' Hint Hin' Hid.
      destruct (setPhase_In_item _ _ _ _ Hint) as (tb & Htb & Hitem).
      destruct (updateItem_status _ _ _ _ Hpid Hin') as (it & Hit & Hid' & Hsame & Hupd).
      destruct (ItemId_eqb_spec (id it) (id (t_item t))) as [Heq|Hne].
      * rewrite (Hupd Heq). destruct Hpst as [-> | ->]; discriminate.
      * rewrite (Hsame Hne) in *. apply (Hst tb it Htb Hit). congruence.
    + intros t' it' Hint Hin' Hid Hdone.
      destruct (setPhase_In _ _ _ _ Hint) as [(j & Hjk & Hj)|(t0 & Hk0 & ->)];
        [|exact Hnext].
      destruct (updateItem_status _ _ _ _ Hpid Hin') as (it & Hit & Hid' & Hsame & Hupd).
      destruct (ItemId_eqb_spec (id it) (id (t_item t))) as [Heq|Hne].
      * exfalso. apply Hjk.
        apply (once_same_task w j k t' t Honce Hj Hk). congruence.
      * rewrite (Hsame Hne) in *.
        apply (Hfin t' it (nth_error_In _ _ Hj) Hit Hid Hdone).
  - constructor; unfold startedIds; rewrite ?Hq', ?Ht', ?Hc'.
    + exact Hids.
    + exact Hfresh.
    + intros t' Hin'. destruct (setPhase_In_item _ _ _ _ Hin') as (tb & Htb & ->).
      apply Htf, Htb.
    + rewrite startedIds_setPhase. exact Honce.
    + intros t' it' Hint Hin' Hid.
      destruct (setPhase_In_item _ _ _ _ Hint) as (tb & Htb & Hitem).
      apply (Hst tb it' Htb Hin'). congruence.
    + intros t' it' Hint Hin' Hid Hdone.
      destruct (setPhase_In _ _ _ _ Hint) as [(j & Hjk & Hj)|(t0 & Hk0 & ->)].
      * apply (Hfin t' it' (nth_error_In _ _ Hj) Hin' Hid Hdone).
      * rewrite Hk in Hk0. injection Hk0 as <-. simpl in *.
        pose proof (Hfin t it' (nth_error_In _ _ Hk) Hin' Hid Hdone) as Hpast.
        apply (nextPhase_pastRead _ o Hpast).
Qed.

Lemma Inv_step e w : Inv w -> Inv (step e w).
Proof.
  intros HI. destruct e; simpl.
  - apply Inv_processNext, HI.
  - apply Inv_settle, HI.
  - (* Progress *)
    destruct HI as [Hids Hfresh Htf Honce Hst Hfin]. constructor.
    + rewrite emitProgress_ids. exact Hids.
    + intros it' Hin'. destruct (emitProgress_In _ _ _ Hin') as (it & Hit & -> & _).
      apply Hfresh, Hit.
    + exact Htf.
    + exact Honce.
    + intros t it' Hint Hin' Hid.
      destruct (emitProgress_In _ _ _ Hin') as (it & Hit & Hid' & ->).
      apply (Hst t it Hint Hit). congruence.
    + intros t it' Hint Hin' Hid.
      destruct (emitProgress_In _ _ _ Hin') as (it & Hit & Hid' & ->).
      apply (Hfin t it Hint Hit). congruence.
  - (* ClickSkip *)
    destruct (existsb _ (queue w)); [|exact HI].
    destruct HI as [Hids Hfresh Htf Honce Hst Hfin].
    constructor; simpl; unfold cancelItem.
    + rewrite updateItem_ids by reflexivity. exact Hids.
    + intros it' Hin'. apply updateItem_status in Hin'; [|reflexivity].
      destruct Hin' as (it & Hit & -> & _). apply Hfresh, Hit.
    + exact Htf.
    + exact Honce.
    + intros t it' Hint Hin' Hid. apply updateItem_status in Hin'; [|reflexivity].
      destruct Hin' as (it & Hit & Hid' & Hsame & Hupd).
      destruct (ItemId_eqb_spec (id it) i) as [Heq|Hne].
      * rewrite (Hupd Heq). discriminate.
      * rewrite (Hsame Hne) in *. apply (Hst t it Hint Hit Hid).
    + intros t it' Hint Hin' Hid Hdone. apply updateItem_status in Hin'; [|reflexivity].
      destruct Hin' as (it & Hit & Hid' & Hsame & Hupd).
      destruct (ItemId_eqb_spec (id it) i) as [Heq|Hne].
      * rewrite (Hupd Heq) in Hdone. destruct Hdone; discriminate.
      * rewrite (Hsame Hne) in *. apply (Hfin t it Hint Hit Hid Hdone).
  - (* ClickClear *)
    destruct HI as [Hids Hfresh Htf Honce Hst Hfin].
    assert (Hsub : forall it, In it (clearFinished (queue w)) -> In it (queue w))
      by (intros it H; apply filter_In in H; apply H).
    constructor; simpl.
    + apply NoDup_map_filter, Hids.
    + intros it Hin. apply Hfresh, Hsub, Hin.
    + exact Htf.
    + exact Honce.
    + intros t it Hint Hin. apply (Hst t it Hint (Hsub _ Hin)).
    + intros t it Hint Hin. apply (Hfin t it Hint (Hsub _ Hin)).
  - (* AddFiles *)
    destruct HI as [Hids Hfresh Htf Honce Hst Hfin].
    assert (Hnew : forall t it, In t (tasks w) ->
                     In it (newItems (idCounter w) files) ->
                     id it <> id (t_item t)).
    { intros t it Hint Hin Heq. apply newItems_In in Hin.
      destruct Hin as (_ & Hlo & _). pose proof (Htf t Hint). rewrite Heq in Hlo. lia. }
    constructor; simpl; unfold addFiles.
    + rewrite map_app. apply NoDup_app; [exact Hids|apply newItems_ids_NoDup|].
      intros a Ha Hb. apply in_map_iff in Ha. destruct Ha as (it & <- & Hit).
      apply in_map_iff in Hb. destruct Hb as (it2 & Heq & Hit2).
      apply newItems_In in Hit2. destruct Hit2 as (_ & Hlo & _).
      pose proof (Hfresh it Hit). rewrite Heq in Hlo. lia.
    + intros it Hin. apply in_app_or in Hin. destruct Hin as [Hin|Hin].
      * pose proof (Hfresh it Hin). lia.
      * apply newItems_In in Hin. lia.
    + intros t Hint. pose proof (Htf t Hint). lia.
    + exact Honce.
    + intros t it Hint Hin Hid. apply in_app_or in Hin. destruct Hin as [Hin|Hin].
      * apply (Hst t it Hint Hin Hid).
      * exfalso. apply (Hnew t it Hint Hin Hid).
    + intros t it Hint Hin Hid. apply in_app_or in Hin. destruct Hin as [Hin|Hin].
      * apply (Hfin t it Hint Hin Hid).
      * exfalso. apply (Hnew t it Hint Hin Hid).
  - destruct HI. constructor; assumption.
  - destruct HI. constructor; assumption.
  - destruct HI. constructor; assumption.
Qed.

Lemma Inv_run es : forall w, Inv w -> Inv (run es w).
Proof.
  induction es as [|e es IH]; intros w HI; [exact HI|].
  rewrite run_cons. apply IH, Inv_step, HI.
Qed.

Lemma Inv_reachable es : Inv (run es initial).
Proof. apply Inv_run, Inv_initial. Qed.



(** ** The runs of the effect after an event *)






(** What [play] reaches, [run] reaches. *)
Lemma effectRuns_run fuel : forall w,
  exists n, effectRuns fuel w = run (repeat Effect n) w.
Proof.
  induction fuel as [|fuel IH]; intros w; [exists 0%nat; reflexivity|]. simpl.
  destruct (selectNext w) as [item|] eqn:Hsel; [|exists 0%nat; reflexivity].
  destruct (IH (processNext w)) as (n & Hn). exists (S n).
  rewrite run_Effects_cons. exact Hn.
Qed.

Lemma play_run es : forall w, exists es', play es w = run es' w.
Proof.
  induction es as [|e es IH]; intros w; [exists []; reflexivity|].
  change (play (e :: es) w) with (play es (dispatch e w)).
  destruct (IH (dispatch e w)) as (es2 & H2).
  destruct (effectRuns_run (S (List.length (queue (step e w)))) (step e w))
    as (n & Hn).
  exists (e :: repeat Effect n ++ es2).
  rewrite H2. unfold dispatch. rewrite Hn, run_cons, run_app. reflexivity.
Qed.

Lemma Inv_play es : Inv (play es initial).
Proof. destruct (play_run es initial) as (es' & ->). apply Inv_reachable. Qed.

(** The ids of the store are all different, in every state reached. *)
Lemma reachable_ids_NoDup es : NoDup (map id (queue (run es initial))).
Proof. apply inv_ids, Inv_reachable. Qed.

(** ** The download name *)

Local Open Scope string_scope.

Lemma isDot_true c : isDot c = true <-> c = "."%char.
Proof. unfold isDot. apply Ascii.eqb_eq. Qed.

Lemma noDot_get s : noDot s = true <-> forall n, get n s <> Some "."%char.
Proof.
  induction s as [|c s IH]; simpl.
  - split; [intros _ n; destruct n; discriminate|reflexivity].
  - rewrite andb_true_iff, negb_true_iff, IH. split.
    + intros [Hc Hs] [|n]; [|apply Hs].
      intros H. injection H as ->. discriminate.
    + intros H. split.
      * destruct (isDot c) eqn:Hc; [|reflexivity].
        apply isDot_true in Hc. subst c. exfalso. apply (H 0%nat). reflexivity.
      * intros n. apply (H (S n)).
Qed.

Lemma noDot_app a b : noDot (a ++ b) = noDot a && noDot b.
Proof.
  induction a as [|c a IH]; simpl; [reflexivity|].
  rewrite IH, andb_assoc. reflexivity.
Qed.

Lemma matchesHere_cons c t :
  matchesHere (String c t) = isDot c && negb (String.eqb t "") && noDot t.
Proof.
  destruct t as [|d t]; simpl; destruct (isDot c); reflexivity.
Qed.

Lemma matchesHere_noDot s : noDot s = true -> matchesHere s = false.
Proof.
  destruct s as [|c t]; [reflexivity|]. rewrite matchesHere_cons. simpl.
  rewrite andb_true_iff, negb_true_iff. intros [-> _]. reflexivity.
Qed.

Lemma replaceExt_noDot s : noDot s = true -> replaceExt s = s.
Proof.
  induction s as [|c s IH]; intros H; [reflexivity|].
  unfold replaceExt; fold replaceExt. rewrite (matchesHere_noDot _ H).
  simpl in H. apply andb_true_iff in H. f_equal. apply IH, H.
Qed.

Lemma replaceExt_cons c t :
  replaceExt (String c t)
  = if matchesHere (String c t) then "" else String c (replaceExt t).
Proof. reflexivity. Qed.

Lemma replaceExt_extension base ext :
  noDot ext = true -> ext <> "" ->
  replaceExt (base ++ String "." ext) = base.
Proof.
  intros Hext Hne. induction base as [|c base IH].
  - simpl append. rewrite replaceExt_cons, matchesHere_cons, Hext.
    destruct ext; [contradiction|reflexivity].
  - simpl append. rewrite replaceExt_cons, matchesHere_cons, noDot_app.
    simpl noDot. rewrite !andb_false_r. f_equal. exact IH.
Qed.

Lemma replaceExt_trailing_dot base : replaceExt (base ++ ".") = base ++ ".".
Proof.
  induction base as [|c base IH]; [reflexivity|].
  simpl append. rewrite replaceExt_cons, matchesHere_cons, noDot_app.
  simpl noDot. rewrite !andb_false_r. f_equal. exact IH.
Qed.

(** Every name either has no dot or splits at its last dot. *)
Lemma split_at_last_dot s :
  noDot s = true
  \/ exists base ext, s = base ++ String "." ext /\ noDot ext = true.
Proof.
  induction s as [|c s IH]; [left; reflexivity|].
  destruct IH as [Hs|(base & ext & -> & Hext)].
  - destruct (isDot c) eqn:Hc.
    + right. apply isDot_true in Hc. subst c. exists "", s. split; [reflexivity|exact Hs].
    + left. simpl. rewrite Hc, Hs. reflexivity.
  - right. exists (String c base), ext. split; [reflexivity|exact Hext].
Qed.

Lemma lastDot_noDot s : noDot s = true -> lastDot s = None.
Proof.
  induction s as [|c s IH]; [reflexivity|]. simpl.
  rewrite andb_true_iff, negb_true_iff. intros [Hc Hs].
  rewrite (IH Hs), Hc. reflexivity.
Qed.

Lemma lastDot_extension base ext :
  noDot ext = true -> lastDot (base ++ String "." ext) = Some (String.length base).
Proof.
  intros Hext. induction base as [|c base IH]; simpl.
  - rewrite (lastDot_noDot _ Hext). reflexivity.
  - simpl in IH. rewrite IH. reflexivity.
Qed.

Lemma substring_prefix base rest :
  substring 0 (String.length base) (base ++ rest) = base.
Proof.
  induction base as [|c base IH]; simpl.
  - destruct rest; reflexivity.
  - f_equal. exact IH.
Qed.

Lemma length_append a b :
  String.length (a ++ b) = (String.length a + String.length b)%nat.
Proof. induction a as [|c a IH]; simpl; [reflexivity|]. f_equal. exact IH. Qed.

(** The replacement made by the code strips the extension, in the sense
    of the specification. *)
Lemma replaceExt_refines nm : replaceExt nm = stripExtension_spec nm.
Proof.
  unfold stripExtension_spec.
  destruct (split_at_last_dot nm) as [H|(base & ext & -> & Hext)].
  - rewrite (lastDot_noDot _ H). apply replaceExt_noDot, H.
  - rewrite (lastDot_extension _ _ Hext), length_append. simpl String.length.
    destruct ext as [|d ext].
    + simpl String.length.
      replace (S (String.length base) <? String.length base + 1)%nat with false
        by (symmetry; apply Nat.ltb_ge; lia).
      apply replaceExt_trailing_dot.
    + simpl String.length.
      replace (S (String.length base) <? String.length base + S (S (String.length ext)))%nat
        with true by (symmetry; apply Nat.ltb_lt; lia).
      rewrite substring_prefix. apply replaceExt_extension; [exact Hext|discriminate].
Qed.

Lemma append_assoc a b c : (a ++ b) ++ c = a ++ (b ++ c).
Proof. induction a as [|x a IH]; simpl; [reflexivity|]. f_equal. exact IH. Qed.

Lemma downloadName_refines nm : downloadName nm = downloadName_spec nm.
Proof.
  unfold downloadName, downloadName_spec.
  rewrite <- replaceExt_refines, append_assoc. reflexivity.
Qed.

(** C9. The link of an item that has an output URL, as every item marked
    done by the driver has, offers the download name that the
    specification describes: the item's name with its extension stripped,
    then ['-compressed'], then ['.mp4']; ['clip.mov'] gives
    ['clip-compressed.mp4']. *)
Theorem download_name_of_finished_item (it : Item) :
  truthy (outputUrl it) = true ->
  downloadLink it = Some (downloadName_spec (name it))
  /\ downloadName_spec "clip.mov" = "clip-compressed.mp4"
  /\ downloadName "clip.mov" = "clip-compressed.mp4"
  /\ (forall w k t url it',
        nth_error (tasks w) k = Some t -> t_phase t = AwaitReadFile ->
        url <> "" ->
        In it' (queue (step (Settle k (Fulfilled url)) w)) ->
        id it' = id (t_item t) ->
        status it' = done
        /\ downloadLink it' = Some (downloadName_spec (name it'))).
Proof.
  intros Hurl. split; [|split; [|split]]; try reflexivity.
  - unfold downloadLink. rewrite Hurl, downloadName_refines. reflexivity.
  - intros w k t url it' Hk Hph Hne Hin Hid. simpl in Hin.
    destruct (settle_read_fulfilled k url w t Hk Hph) as (Hq & _).
    rewrite Hq in Hin. apply updateItem_In in Hin.
    destruct Hin as (it0 & _ & ->).
    destruct (ItemId_eqb_spec (id it0) (id (t_item t))) as [_|Hneq];
      [|contradiction].
    split; [reflexivity|].
    unfold downloadLink. simpl.
    destruct (String.eqb_spec url ""); [contradiction|]. simpl.
    rewrite downloadName_refines. reflexivity.
Qed.

Lemma download_name_of_finished_item_witness :
  downloadLink (spread (clipItem processing 40) (donePatch "blob:1"))
  = Some "clip-compressed.mp4".
Proof.
  destruct (download_name_of_finished_item
              (spread (clipItem processing 40) (donePatch "blob:1")) eq_refl)
    as (H & _).
  exact H.
Defined.

(** C10. Only what follows the last ['.'] goes, with that ['.']: a name
    without ['.'] is kept whole before ['-compressed.mp4'], a name that
    ends in ['.'] and an extension without ['.'] loses that ending and no
    more, so that ['a.b.mov'] gives ['a.b-compressed.mp4'], and whatever
    the name, what is taken off its end is nothing or such an ending. *)
Theorem only_last_extension_stripped :
  (forall nm, (forall n, get n nm <> Some "."%char) ->
     downloadName nm = nm ++ "-compressed.mp4")
  /\ (forall base ext, (forall n, get n ext <> Some "."%char) -> ext <> "" ->
        downloadName (base ++ "." ++ ext) = base ++ "-compressed.mp4")
  /\ downloadName "a.b.mov" = "a.b-compressed.mp4"
  /\ (forall nm, exists stem tail,
        nm = stem ++ tail
        /\ downloadName nm = stem ++ "-compressed.mp4"
        /\ (tail = ""
            \/ exists ext, tail = "." ++ ext /\ ext <> ""
                           /\ forall n, get n ext <> Some "."%char)).
Proof.
  split; [|split; [|split]].
  - intros nm H. apply noDot_get in H. unfold downloadName.
    rewrite (replaceExt_noDot _ H). reflexivity.
  - intros base ext H Hne. apply noDot_get in H. unfold downloadName.
    simpl append. rewrite (replaceExt_extension base ext H Hne). reflexivity.
  - reflexivity.
  - intros nm. unfold downloadName.
    destruct (split_at_last_dot nm) as [H|(base & ext & -> & Hext)].
    + exists nm, "". rewrite (replaceExt_noDot _ H).
      repeat split; [|left; reflexivity].
      clear H. induction nm as [|c nm IH]; simpl; [reflexivity|]. f_equal. exact IH.
    + destruct ext as [|d ext].
      * exists (base ++ "."), "". rewrite replaceExt_trailing_dot.
        repeat split; [|left; reflexivity].
        clear. induction base as [|c base IH]; simpl; [reflexivity|]. f_equal. exact IH.
      * exists base, (String "." (String d ext)).
        rewrite (replaceExt_extension base (String d ext) Hext) by discriminate.
        repeat split. right. exists (String d ext).
        repeat split; [discriminate|]. apply noDot_get, Hext.
Qed.

Lemma only_last_extension_stripped_witness :
  downloadName "notes" = "notes-compressed.mp4"
  /\ downloadName ("archive.tar" ++ "." ++ "gz") = "archive.tar-compressed.mp4".
Proof.
  destruct only_last_extension_stripped as (Hnone & Hext & _).
  split.
  - apply Hnone. intros n. do 6 (destruct n as [|n]; [discriminate|]). discriminate.
  - apply Hext; [|discriminate].
    intros n. do 3 (destruct n as [|n]; [discriminate|]). discriminate.
Defined.

Local Close Scope string_scope.

(** * The rest of the component *)

(** ** New items *)

(** X1. In every state the component reaches, the ids of the store are
    pairwise different, and the counter part of each is below the
    counter the next item will get. *)
Theorem ids_unique_in_every_state (es : list Event) :
  NoDup (map id (queue (run es initial)))
  /\ (forall it, In it (queue (run es initial)) ->
        (snd (id it) < idCounter (run es initial))%nat)
  /\ (forall n m a b,
        nth_error (queue (run es initial)) n = Some a ->
        nth_error (queue (run es initial)) m = Some b ->
        id a = id b -> n = m).
Proof.
  pose proof (Inv_reachable es) as [Hids Hfresh _ _ _ _].
  split; [exact Hids|split; [exact Hfresh|]].
  intros n m a b Hn Hm Heq.
  apply (proj1 (NoDup_nth_error (map id (queue (run es initial)))) Hids).
  - rewrite length_map. apply nth_error_Some. congruence.
  - rewrite !nth_error_map, Hn, Hm. simpl. congruence.
Qed.

Lemma newItems_length : forall files counter,
  List.length (newItems counter files) = List.length files.
Proof.
  induction files as [|[now f] files IH]; intros counter; simpl;
    [reflexivity|]. f_equal. apply IH.
Qed.

Lemma newItems_nth : forall files counter j now f,
  nth_error files j = Some (now, f) ->
  nth_error (newItems counter files) j = Some (freshItem now (counter + j) f).
Proof.
  induction files as [|[now0 f0] files IH]; intros counter [|j] now f H;
    simpl in *; try discriminate.
  - injection H as -> ->. rewrite Nat.add_0_r. reflexivity.
  - rewrite (IH (S counter) j now f H). do 2 f_equal. lia.
Qed.

(** X2. Dropping files leaves every item of the store where and as it
    is and puts one item per file behind them, in the order of the
    files: queued, progress 0, no output, no error, named after its
    file, numbered from the counter on, which advances by the number of
    files.  Tasks, handlers and flags are not touched. *)
Theorem addFiles_appends_queued_items (files : list (Z * File)) (w : World) :
  (forall n it, nth_error (queue w) n = Some it ->
     nth_error (queue (step (AddFiles files) w)) n = Some it)
  /\ List.length (queue (step (AddFiles files) w))
     = (List.length (queue w) + List.length files)%nat
  /\ (forall j now f, nth_error files j = Some (now, f) ->
        nth_error (queue (step (AddFiles files) w)) (List.length (queue w) + j)
        = Some (freshItem now (idCounter w + j) f))
  /\ idCounter (step (AddFiles files) w) = (idCounter w + List.length files)%nat
  /\ tasks (step (AddFiles files) w) = tasks w
  /\ listeners (step (AddFiles files) w) = listeners w
  /\ running (step (AddFiles files) w) = running w.
Proof.
  simpl. unfold addFiles. repeat split.
  - intros n it Hn. rewrite nth_error_app1; [exact Hn|].
    apply nth_error_Some. congruence.
  - rewrite length_app, newItems_length. reflexivity.
  - intros j now f Hj. rewrite nth_error_app2 by lia.
    replace (List.length (queue w) + j - List.length (queue w))%nat with j by lia.
    apply newItems_nth, Hj.
Qed.

(** ** Before the engine is there, and while paused *)

Lemma settle_flags k o w :
  running (settle k o w) = running w
  /\ ready (settle k o w) = ready w
  /\ ffmpeg (settle k o w) = ffmpeg w
  /\ settings (settle k o w) = settings w.
Proof.
  unfold settle. destruct (nth_error (tasks w) k) as [t|]; [|repeat split].
  unfold resume. destruct (t_phase t), o; repeat split.
Qed.

Lemma progress_without_listeners p w : listeners w = [] -> emitProgress p w = w.
Proof. intros H. unfold emitProgress. rewrite H. destruct w; reflexivity. Qed.

Lemma nothingStarted_step e w :
  e <> Loaded -> nothingStarted w -> nothingStarted (step e w).
Proof.
  intros He Hw. pose proof Hw as (Hr & Ht & Hl & Hc & Hq). destruct e; simpl.
  - rewrite processNext_idle; [exact Hw|].
    apply selectNext_idle_flags. auto.
  - rewrite settle_no_task; [exact Hw|].
    rewrite Ht. destruct k; reflexivity.
  - rewrite (progress_without_listeners _ _ Hl). exact Hw.
  - destruct (existsb _ (queue w)); [|exact Hw].
    split; [exact Hr|split; [exact Ht|split; [exact Hl|split; [exact Hc|]]]].
    intros it H. simpl in H. unfold cancelItem in H.
    apply updateItem_In in H. destruct H as (it0 & Hin0 & ->).
    destruct (Hq it0 Hin0) as (Hs & Hp & Hu & He0).
    destruct (ItemId_eqb (id it0) i); simpl; auto.
  - split; [exact Hr|split; [exact Ht|split; [exact Hl|split; [exact Hc|]]]].
    intros it H. simpl in H. unfold clearFinished in H.
    apply filter_In in H. destruct H as (Hin & _). apply (Hq it Hin).
  - split; [exact Hr|split; [exact Ht|split; [exact Hl|split; [exact Hc|]]]].
    intros it H. simpl in H. unfold addFiles in H.
    apply in_app_or in H. destruct H as [H|H]; [apply (Hq it H)|].
    apply In_nth_error in H. destruct H as (j & Hj).
    assert (Hlt : (j < List.length files)%nat).
    { rewrite <- (newItems_length files (idCounter w)).
      apply nth_error_Some. congruence. }
    destruct (nth_error files j) as [[now f]|] eqn:Hf;
      [|apply nth_error_None in Hf; lia].
    rewrite (newItems_nth files (idCounter w) j now f Hf) in Hj.
    injection Hj as <-. simpl. auto.
  - exact Hw.
  - exact Hw.
  - contradiction.
Qed.

(** X3. As long as the engine has not loaded, nothing is started,
    whatever is dropped or clicked: no call of processNext is under way,
    no handler is registered, no engine call was made, and every item is
    queued or skipped with progress 0, no output and no error. *)
Theorem nothing_starts_before_load (es : list Event) :
  ~ In Loaded es ->
  ready (run es initial) = false
  /\ tasks (run es initial) = []
  /\ listeners (run es initial) = []
  /\ calls (run es initial) = []
  /\ (forall it, In it (queue (run es initial)) ->
        (status it = queued \/ status it = skipped)
        /\ progress it = 0%Z /\ outputUrl it = None /\ err it = None).
Proof.
  intros Hno.
  assert (H : forall w, nothingStarted w -> nothingStarted (run es w)).
  { induction es as [|e es IH]; intros w Hw; [exact Hw|].
    rewrite run_cons. apply IH.
    - intros Hin. apply Hno. right. exact Hin.
    - apply nothingStarted_step; [|exact Hw].
      intros ->. apply Hno. left. reflexivity. }
  apply H. unfold nothingStarted. simpl.
  repeat split; try reflexivity; contradiction.
Qed.

Lemma nothing_starts_before_load_witness :
  tasks (run [AddFiles [(firstDrop, clipFile)]; SetRunning true; Effect;
              ClickSkip clipId; Effect] initial) = [].
Proof.
  apply (nothing_starts_before_load
           [AddFiles [(firstDrop, clipFile)]; SetRunning true; Effect;
            ClickSkip clipId; Effect]).
  intros [H|[H|[H|[H|[H|[]]]]]]; discriminate.
Defined.




(** ** An execution and the rest of the state *)

Lemma setPhase_nth_other k ph : forall ts j,
  j <> k -> nth_error (setPhase k ph ts) j = nth_error ts j.
Proof.
  induction k as [|k IH]; intros [|x ts] [|j] H; simpl; try reflexivity.
  - contradiction.
  - apply IH. congruence.
Qed.

(** X5. An execution under way does not see Pause, Start or a change of
    the settings: resuming a suspended processNext after such an event
    gives the state that the event gives after the resumption. *)
Theorem execution_ignores_flag_and_settings (k : nat) (o : Outcome) (w : World) :
  (forall b, step (Settle k o) (step (SetRunning b) w)
             = step (SetRunning b) (step (Settle k o) w))
  /\ (forall s, step (Settle k o) (step (SetSettings s) w)
                = step (SetSettings s) (step (Settle k o) w)).
Proof.
  split; intros x; simpl; unfold settle; simpl;
    destruct (nth_error (tasks w) k) as [t|]; try reflexivity;
    unfold resume; destruct (t_phase t), o; reflexivity.
Qed.

(** X6. Resuming one call of processNext writes to the items of its own
    id only: every item of another id stays where and as it is, the store
    keeps its length, the other calls stay in their phase and the flags
    and settings are not touched, whether the awaited promise was
    fulfilled or rejected. *)
Theorem settle_touches_own_item_only (k : nat) (o : Outcome) (w : World) (t : Task) :
  nth_error (tasks w) k = Some t ->
  (forall n it, nth_error (queue w) n = Some it -> id it <> id (t_item t) ->
     nth_error (queue (step (Settle k o) w)) n = Some it)
  /\ List.length (queue (step (Settle k o) w)) = List.length (queue w)
  /\ (forall j, j <> k ->
        nth_error (tasks (step (Settle k o) w)) j = nth_error (tasks w) j)
  /\ running (step (Settle k o) w) = running w
  /\ ready (step (Settle k o) w) = ready w
  /\ settings (step (Settle k o) w) = settings w.
Proof.
  intros Hk. simpl.
  destruct (settle_flags k o w) as (Hr & Hy & _ & Hs).
  rewrite (settle_queue _ _ _ _ Hk), (settle_tasks _ _ _ _ Hk).
  split; [|split; [|split; [|auto]]].
  - intros n it Hn Hne.
    destruct (nextPatch (t_phase t) o) as [patch|]; [|exact Hn].
    rewrite updateItem_nth, Hn. simpl.
    rewrite ItemId_eqb_neq by exact Hne. reflexivity.
  - destruct (nextPatch (t_phase t) o); [apply updateItem_length|reflexivity].
  - intros j Hj. apply setPhase_nth_other, Hj.
Qed.

Lemma settle_touches_own_item_only_witness :
  nth_error (queue (step (Settle 0 (Rejected failure))
                      (play (twoDropped ++ [Settle 0 anyUrl; Settle 1 anyUrl])
                            initial))) 1
  = Some (spread (talkItem queued 0) processingPatch).
Proof.
  destruct (settle_touches_own_item_only 0 (Rejected failure)
              (play (twoDropped ++ [Settle 0 anyUrl; Settle 1 anyUrl]) initial)
              {| t_item := clipItem queued 0; t_settings := settings initial;
                 t_phase := AwaitWriteFile |} eq_refl) as (H & _).
  apply H; [reflexivity|discriminate].
Defined.

(** X7. The [exec] call of an execution carries the settings that were
    in force when processNext picked the item: after the item is picked,
    a change of the settings, the file read and the file written, the
    engine has been asked to read the file, write it under the input
    name, report progress and run the arguments of the settings at the
    time of the pick. *)
Theorem exec_uses_settings_of_the_start (w : World) (item : Item)
    (s' : Settings) (u1 u2 : string) :
  selectNext w = Some item ->
  calls (run [Effect; SetSettings s';
              Settle (List.length (tasks w)) (Fulfilled u1);
              Settle (List.length (tasks w)) (Fulfilled u2)] w)
  = calls w ++ [ArrayBuffer (file item); WriteFile (InputName (id item));
                OnProgress (id item);
                Exec (args (settings w) (InputName (id item))
                           (OutputName (id item)))].
Proof.
  intros Hsel. unfold run. simpl fold_left.
  set (k := List.length (tasks w)).
  set (w1 := mkWorld _ _ _ _ _ _ _ _ _).
  assert (Hw1 : tasks w1 = tasks w ++ [newTask w item]
                /\ calls w1 = calls w ++ [ArrayBuffer (file item)]).
  { subst w1. unfold processNext. rewrite Hsel. split; reflexivity. }
  destruct Hw1 as (Ht1 & Hc1).
  assert (Hk1 : nth_error (tasks w1) k = Some (newTask w item)).
  { rewrite Ht1, nth_error_app2 by (subst k; lia).
    subst k. rewrite Nat.sub_diag. reflexivity. }
  set (w2 := settle k (Fulfilled u1) w1).
  assert (Hk2 : nth_error (tasks w2) k
                = Some (withPhase (newTask w item) AwaitWriteFile)).
  { subst w2. rewrite (settle_tasks _ _ _ _ Hk1). apply setPhase_nth, Hk1. }
  assert (Hc2 : calls w2 = calls w1 ++ [WriteFile (InputName (id item))]).
  { subst w2. rewrite (settle_eq _ _ _ _ Hk1). reflexivity. }
  rewrite (settle_eq _ _ _ _ Hk2). simpl. rewrite Hc2, Hc1, <- !app_assoc.
  reflexivity.
Qed.

Lemma exec_uses_settings_of_the_start_witness :
  calls (run [Effect;
              SetSettings {| selectedScale := None; crf := 30%Z; preset := "fast" |};
              Settle 0 anyUrl; Settle 0 anyUrl] (run oneDropped initial))
  = [ArrayBuffer clipFile; WriteFile (InputName clipId); OnProgress clipId;
     Exec (args (settings initial) (InputName clipId) (OutputName clipId))].
Proof.
  apply (exec_uses_settings_of_the_start (run oneDropped initial)
           (clipItem queued 0)
           {| selectedScale := None; crf := 30%Z; preset := "fast" |}
           "blob:1" "blob:1").
  reflexivity.
Defined.

(** ** The arguments given to the engine *)

Lemma scaleOf_cases sp z :
  scaleOf sp = Some z <->
  (sp = "1080p"%string /\ z = 1920%Z) \/ (sp = "720p"%string /\ z = 1280%Z)
  \/ (sp = "480p"%string /\ z = 854%Z).
Proof.
  unfold scaleOf, presets. cbn [find pr_id].
  destruct (String.eqb_spec "1080p" sp) as [<-|H1]; cbn [pr_scale].
  { split; [intros H; injection H as <-; auto|].
    intros [[_ ->]|[[H _]|[H _]]]; [reflexivity|discriminate|discriminate]. }
  destruct (String.eqb_spec "720p" sp) as [<-|H2]; cbn [pr_scale].
  { split; [intros H; injection H as <-; auto|].
    intros [[H _]|[[_ ->]|[H _]]]; [discriminate|reflexivity|discriminate]. }
  destruct (String.eqb_spec "480p" sp) as [<-|H3]; cbn [pr_scale].
  { split; [intros H; injection H as <-; auto|].
    intros [[H _]|[[H _]|[_ ->]]]; [discriminate|discriminate|reflexivity]. }
  destruct (String.eqb_spec "original" sp) as [<-|H4]; cbn [pr_scale];
    (split; [intros H; discriminate H|]);
    intros [[H _]|[[H _]|[H _]]]; congruence.
Qed.

(** X8. The argument list always begins with ['-i'] and the input name
    and ends with the output name; it holds a scale filter exactly when a
    scale other than null and 0 is selected, that filter being for the
    selected scale, and is 17 arguments long with it, 15 without.  The
    size presets 1080p, 720p and 480p select 1920, 1280 and 854; the
    preset original and any unknown one select no scale. *)
Theorem args_shape (s : Settings) (inputName outputName : FileName) :
  firstn 2 (args s inputName outputName) = [Lit "-i"; FileArg inputName]
  /\ last (args s inputName outputName) (Lit "") = FileArg outputName
  /\ (forall z, In (ScaleArg z) (args s inputName outputName)
                <-> selectedScale s = Some z /\ z <> 0%Z)
  /\ List.length (args s inputName outputName)
     = (if existsb (fun a => match a with ScaleArg _ => true | _ => false end)
                   (args s inputName outputName)
        then 17 else 15)%nat
  /\ (forall sp z, scaleOf sp = Some z <->
        (sp = "1080p"%string /\ z = 1920%Z) \/ (sp = "720p"%string /\ z = 1280%Z)
        \/ (sp = "480p"%string /\ z = 854%Z)).
Proof.
  split; [reflexivity|]. split.
  { unfold args, vfArgs. destruct (selectedScale s) as [z|];
      [destruct (Z.eqb z 0)|]; reflexivity. }
  split.
  { intros z. unfold args, vfArgs.
    destruct (selectedScale s) as [z0|]; [destruct (Z.eqb_spec z0 0)|]; simpl.
    - split; [intros H|intros [H Hz]].
      + repeat (destruct H as [H|H]; [discriminate|]). contradiction.
      + congruence.
    - split; [intros H|intros [H Hz]].
      + repeat (destruct H as [H|H]; [try discriminate|]);
          [injection H as <-; auto|contradiction].
      + injection H as ->. auto 10.
    - split; [intros H|intros [H _]; discriminate].
      repeat (destruct H as [H|H]; [discriminate|]). contradiction. }
  split; [|apply scaleOf_cases].
  unfold args, vfArgs. destruct (selectedScale s) as [z|];
    [destruct (Z.eqb z 0)|]; reflexivity.
Qed.

(** ** The counters of the header *)

(** X9. The three counters of the queue header count disjoint items:
    with the items in error and the skipped ones they add up to the
    length of the queue, so that their sum never exceeds it. *)
Theorem counters_partition (q : Queue) :
  (totalQueued q + totalProcessing q + totalDone q
   + countStatus error q + countStatus skipped q = List.length q)%nat
  /\ (totalQueued q + totalProcessing q + totalDone q <= List.length q)%nat.
Proof.
  assert (H : (totalQueued q + totalProcessing q + totalDone q
               + countStatus error q + countStatus skipped q = List.length q)%nat).
  { unfold totalQueued, totalProcessing, totalDone.
    induction q as [|x q IH]; [reflexivity|].
    rewrite !countStatus_cons. simpl List.length.
    destruct (status x); simpl; lia. }
  split; [exact H|lia].
Qed.

(** ** One call of processNext per item *)

Lemma unique_by_id (q : Queue) (a b : Item) :
  NoDup (map id q) -> In a q -> In b q -> id a = id b -> a = b.
Proof.
  intros Hnd Ha Hb Heq.
  destruct (In_nth_error _ _ Ha) as (n & Hn).
  destruct (In_nth_error _ _ Hb) as (m & Hm).
  assert (n = m).
  { apply (proj1 (NoDup_nth_error (map id q)) Hnd).
    - rewrite length_map. apply nth_error_Some. congruence.
    - rewrite !nth_error_map, Hn, Hm. simpl. congruence. }
  congruence.
Qed.

(** ** The patches of an execution, field by field *)

Lemma nextPatch_cases ph o patch :
  nextPatch ph o = Some patch ->
  (exists url, patch = donePatch url) \/ (exists e, patch = errorPatch e).
Proof.
  destruct ph, o; simpl; intros H; try discriminate; injection H as <-; eauto.
Qed.

Lemma emitProgress_In_fields p w it' :
  In it' (queue (emitProgress p w)) ->
  exists it, In it (queue w) /\ id it' = id it /\ file it' = file it
    /\ name it' = name it /\ status it' = status it
    /\ outputUrl it' = outputUrl it /\ err it' = err it.
Proof.
  unfold emitProgress. simpl. rewrite emitProgress_queue, in_map_iff.
  intros (it & <- & Hin). exists it. split; [exact Hin|].
  destruct (subscribed (listeners w) it); repeat split.
Qed.

(** ** What an item keeps for life *)

(** Where the items of the store after an event come from. *)
Lemma step_item_origin e w it' :
  In it' (queue (step e w)) ->
  (exists it, In it (queue w) /\ id it' = id it /\ file it' = file it
              /\ name it' = name it)
  \/ (exists j now f, it' = freshItem now (idCounter w + j) f).
Proof.
  intros Hin'.
  assert (Hupd : forall i patch, p_id patch = None -> p_file patch = None ->
            p_name patch = None -> In it' (updateItem i patch (queue w)) ->
            exists it, In it (queue w) /\ id it' = id it /\ file it' = file it
                       /\ name it' = name it).
  { intros i patch H1 H2 H3 H. apply updateItem_In in H.
    destruct H as (it & Hin & ->). exists it. split; [exact Hin|].
    destruct (ItemId_eqb (id it) i); simpl; rewrite ?H1, ?H2, ?H3; repeat split. }
  destruct e; simpl in Hin'.
  - left. destruct (selectNext w) as [item|] eqn:Hsel.
    + destruct (processNext_starts _ _ Hsel) as (Hq' & _). rewrite Hq' in Hin'.
      refine (Hupd _ _ _ _ _ Hin'); reflexivity.
    + rewrite (processNext_idle _ Hsel) in Hin'. exists it'. auto.
  - left. destruct (nth_error (tasks w) k) as [t|] eqn:Hk.
    + rewrite (settle_queue _ _ _ _ Hk) in Hin'.
      destruct (nextPatch (t_phase t) o) as [patch|] eqn:Hp; [|exists it'; auto].
      destruct (nextPatch_cases _ _ _ Hp) as [(url & ->)|(e & ->)];
        refine (Hupd _ _ _ _ _ Hin'); reflexivity.
    + rewrite (settle_no_task _ _ _ Hk) in Hin'. exists it'. auto.
  - left. destruct (emitProgress_In_fields _ _ _ Hin')
      as (it & Hin & Hid & Hf & Hn & _). exists it. auto.
  - left. destruct (existsb _ (queue w)); [|exists it'; auto].
    refine (Hupd _ _ _ _ _ Hin'); reflexivity.
  - left. simpl in Hin'. unfold clearFinished in Hin'. apply filter_In in Hin'.
    exists it'. intuition.
  - simpl in Hin'. unfold addFiles in Hin'. apply in_app_or in Hin'.
    destruct Hin' as [Hin'|Hin']; [left; exists it'; auto|right].
    apply In_nth_error in Hin'. destruct Hin' as (j & Hj).
    assert (Hlt : (j < List.length files)%nat).
    { rewrite <- (newItems_length files (idCounter w)).
      apply nth_error_Some. congruence. }
    destruct (nth_error files j) as [[now f]|] eqn:Hf;
      [|apply nth_error_None in Hf; lia].
    rewrite (newItems_nth files (idCounter w) j now f Hf) in Hj.
    injection Hj as <-. eauto.
  - left. exists it'. auto.
  - left. exists it'. auto.
  - left. exists it'. auto.
Qed.

Lemma idCounter_step e w : (idCounter w <= idCounter (step e w))%nat.
Proof.
  destruct e; simpl; try lia.
  - unfold processNext. destruct (selectNext w); simpl; lia.
  - rewrite settle_idCounter. lia.
  - destruct (existsb _ (queue w)); simpl; lia.
Qed.

Lemma named_after_file_run es : forall w,
  (forall it, In it (queue w) -> name it = f_name (file it)) ->
  forall it, In it (queue (run es w)) -> name it = f_name (file it).
Proof.
  induction es as [|e es IH]; intros w Hw; [exact Hw|].
  rewrite run_cons. apply IH. intros it' Hin'.
  destruct (step_item_origin e w it' Hin')
    as [(it & Hin & _ & Hf & Hn)|(j & now & f & ->)].
  - rewrite Hf, Hn. apply Hw, Hin.
  - reflexivity.
Qed.

Lemma same_file_run (i : ItemId) (f : File) (nm : string) es : forall w,
  (snd i < idCounter w)%nat ->
  (forall it, In it (queue w) -> id it = i -> file it = f /\ name it = nm) ->
  forall it, In it (queue (run es w)) -> id it = i -> file it = f /\ name it = nm.
Proof.
  induction es as [|e es IH]; intros w Hc Hw; [exact Hw|].
  rewrite run_cons. apply IH.
  - pose proof (idCounter_step e w). lia.
  - intros it' Hin' Hid.
    destruct (step_item_origin e w it' Hin')
      as [(it & Hin & Hid' & Hf & Hn)|(j & now & f0 & ->)].
    + rewrite Hf, Hn. apply Hw; congruence.
    + simpl in Hid. subst i. simpl in Hc. lia.
Qed.

(** X12. An item keeps its file and its name for life, and its name is
    the name of its file: in every state the component reaches each item
    is named after its file, and whatever happens afterwards, the item of
    the same id, as long as it is in the store, has the same file and
    the same name. *)
Theorem file_and_name_never_change (es : list Event) (it : Item) :
  In it (queue (run es initial)) ->
  name it = f_name (file it)
  /\ (forall es' it', In it' (queue (run es' (run es initial))) ->
        id it' = id it -> file it' = file it /\ name it' = name it).
Proof.
  intros Hin. split.
  - apply (named_after_file_run es initial); [intros x []|exact Hin].
  - intros es' it' Hin' Hid.
    pose proof (Inv_reachable es) as [Hids Hfresh _ _ _ _].
    apply (same_file_run (id it) (file it) (name it) es' (run es initial));
      [apply Hfresh, Hin| |exact Hin'|exact Hid].
    intros x Hx Hxi. rewrite (unique_by_id _ _ _ Hids Hx Hin Hxi). auto.
Qed.

Lemma file_and_name_never_change_witness :
  name (clipItem queued 0) = f_name (file (clipItem queued 0)).
Proof.
  apply (file_and_name_never_change oneDropped (clipItem queued 0)).
  left. reflexivity.
Defined.

(** ** The order of the store *)

Lemma Subsequence_refl {A : Type} (l : list A) : Subsequence l l.
Proof. induction l; constructor; assumption. Qed.

Lemma Subsequence_trans {A : Type} (a b c : list A) :
  Subsequence a b -> Subsequence b c -> Subsequence a c.
Proof.
  intros Hab Hbc. revert a Hab.
  induction Hbc as [|x l q Hlq IH|x l q Hlq IH]; intros a Hab.
  - exact Hab.
  - inversion Hab; subst.
    + constructor. apply IH. assumption.
    + apply Subsequence_drop. apply IH. assumption.
  - apply Subsequence_drop. apply IH. exact Hab.
Qed.

Lemma Subsequence_app {A : Type} (a a' b b' : list A) :
  Subsequence a a' -> Subsequence b b' -> Subsequence (a ++ b) (a' ++ b').
Proof.
  intros Ha Hb. induction Ha; simpl; [exact Hb| |]; constructor; assumption.
Qed.

Lemma Subsequence_app_inv {A : Type} (b c : list A) : forall l,
  Subsequence l (b ++ c) ->
  exists l1 l2, l = l1 ++ l2 /\ Subsequence l1 b /\ Subsequence l2 c.
Proof.
  induction b as [|x b IH]; intros l H; simpl in H.
  - exists [], l. repeat split; [constructor|exact H].
  - inversion H as [|x' l' q' Hs|x' l' q' Hs]; subst.
    + destruct (IH _ Hs) as (l1 & l2 & -> & H1 & H2).
      exists (x :: l1), l2. repeat split; [constructor; exact H1|exact H2].
    + destruct (IH _ Hs) as (l1 & l2 & -> & H1 & H2).
      exists l1, l2. repeat split; [apply Subsequence_drop; exact H1|exact H2].
Qed.

Lemma Subsequence_In {A : Type} (l q : list A) (x : A) :
  Subsequence l q -> In x l -> In x q.
Proof.
  induction 1; simpl; intros Hin; [exact Hin| |].
  - destruct Hin; [left; assumption|right; auto].
  - right. auto.
Qed.

Lemma Subsequence_map_filter {A B : Type} (f : A -> B) (g : A -> bool) (l : list A) :
  Subsequence (map f (filter g l)) (map f l).
Proof.
  induction l as [|x l IH]; simpl; [constructor|].
  destruct (g x); simpl; constructor; exact IH.
Qed.

Lemma order_step e w :
  exists kept added,
    map id (queue (step e w)) = kept ++ added
    /\ Subsequence kept (map id (queue w))
    /\ (forall i, In i added -> (idCounter w <= snd i)%nat).
Proof.
  assert (Hsame : forall q', map id q' = map id (queue w) ->
            exists kept added, map id q' = kept ++ added
              /\ Subsequence kept (map id (queue w))
              /\ (forall i, In i added -> (idCounter w <= snd i)%nat)).
  { intros q' H. exists (map id (queue w)), []. rewrite app_nil_r.
    repeat split; [exact H|apply Subsequence_refl|intros i []]. }
  destruct e; simpl.
  - apply Hsame. destruct (selectNext w) as [item|] eqn:Hsel.
    + destruct (processNext_starts _ _ Hsel) as (-> & _).
      apply updateItem_ids. reflexivity.
    + rewrite (processNext_idle _ Hsel). reflexivity.
  - apply Hsame. destruct (nth_error (tasks w) k) as [t|] eqn:Hk.
    + rewrite (settle_queue _ _ _ _ Hk).
      destruct (nextPatch (t_phase t) o) as [patch|] eqn:Hp; [|reflexivity].
      apply updateItem_ids. apply (nextPatch_written _ _ _ Hp).
    + rewrite (settle_no_task _ _ _ Hk). reflexivity.
  - apply Hsame, emitProgress_ids.
  - apply Hsame. destruct (existsb _ (queue w)); [|reflexivity].
    simpl. unfold cancelItem. apply updateItem_ids. reflexivity.
  - exists (map id (clearFinished (queue w))), []. rewrite app_nil_r.
    repeat split; [apply Subsequence_map_filter|intros i []].
  - exists (map id (queue w)), (map id (newItems (idCounter w) files)).
    unfold addFiles. rewrite map_app.
    repeat split; [apply Subsequence_refl|].
    intros i Hin. apply in_map_iff in Hin. destruct Hin as (it & <- & Hin).
    apply newItems_In in Hin. lia.
  - apply Hsame. reflexivity.
  - apply Hsame. reflexivity.
  - apply Hsame. reflexivity.
Qed.

(** X13. No event reorders the store: after any events, the ids of the
    store are ids it had before, in the order they had, followed by ids
    of items made since, whose counter part is not below the counter of
    before.  Items are taken out and put behind, never moved. *)
Theorem store_order_is_kept (es : list Event) : forall w : World,
  exists kept added,
    map id (queue (run es w)) = kept ++ added
    /\ Subsequence kept (map id (queue w))
    /\ (forall i, In i added -> (idCounter w <= snd i)%nat).
Proof.
  induction es as [|e es IH]; intros w.
  - exists (map id (queue w)), []. rewrite app_nil_r.
    repeat split; [apply Subsequence_refl|intros i []].
  - rewrite run_cons.
    destruct (IH (step e w)) as (kept2 & added2 & Hq2 & Hs2 & Hf2).
    destruct (order_step e w) as (kept1 & added1 & Hq1 & Hs1 & Hf1).
    rewrite Hq1 in Hs2.
    destruct (Subsequence_app_inv _ _ _ Hs2) as (k1 & k2 & -> & Hk1 & Hk2).
    exists k1, (k2 ++ added2). rewrite Hq2, app_assoc.
    repeat split; [apply (Subsequence_trans _ _ _ Hk1 Hs1)|].
    intros i Hin. apply in_app_or in Hin. destruct Hin as [Hin|Hin].
    + apply Hf1. apply (Subsequence_In _ _ _ Hk2 Hin).
    + pose proof (Hf2 i Hin). pose proof (idCounter_step e w). lia.
Qed.

(** ** What the runs of the effect leave behind *)





(** ** Skipping an item that waits *)




(** ** Clearing and updating, algebraically *)

Lemma countStatus_filter (s : Status) (g : Item -> bool) (q : Queue) :
  (forall it, status it = s -> g it = true) ->
  countStatus s (filter g q) = countStatus s q.
Proof.
  intros Hg. induction q as [|x q IH]; [reflexivity|]. simpl.
  destruct (g x) eqn:Hx.
  - rewrite !countStatus_cons, IH. reflexivity.
  - rewrite countStatus_cons, IH.
    destruct (Status_eqb_spec (status x) s) as [Hs|]; [|reflexivity].
    rewrite (Hg x Hs) in Hx. discriminate.
Qed.

Lemma countStatus_zero (s : Status) (q : Queue) :
  countStatus s q = 0%nat <-> forall it, In it q -> status it <> s.
Proof.
  induction q as [|x q IH]; simpl.
  - split; [intros _ it []|reflexivity].
  - rewrite countStatus_cons.
    destruct (Status_eqb_spec (status x) s) as [Hs|Hs]; simpl.
    + split; [discriminate|]. intros H. exfalso. apply (H x); auto.
    + rewrite IH. split.
      * intros H it [<-|Hin]; auto.
      * intros H it Hin. apply H. auto.
Qed.

(** X16. Clear finished takes the done and error counts to 0 and leaves
    the numbers of queued, processing and skipped items as they are;
    clearing twice is clearing once, clearing a store put together of
    two parts is clearing the parts, and a store without done and error
    items is returned as it is. *)
Theorem clearFinished_algebra (q1 q2 : Queue) :
  clearFinished (clearFinished q1) = clearFinished q1
  /\ clearFinished (q1 ++ q2) = clearFinished q1 ++ clearFinished q2
  /\ totalDone (clearFinished q1) = 0%nat
  /\ countStatus error (clearFinished q1) = 0%nat
  /\ totalQueued (clearFinished q1) = totalQueued q1
  /\ totalProcessing (clearFinished q1) = totalProcessing q1
  /\ countStatus skipped (clearFinished q1) = countStatus skipped q1
  /\ (totalDone q1 = 0%nat -> countStatus error q1 = 0%nat ->
      clearFinished q1 = q1).
Proof.
  unfold totalDone, totalQueued, totalProcessing, clearFinished.
  split; [|split; [apply filter_app|]].
  { induction q1 as [|x q IH]; [reflexivity|]. simpl.
    destruct (negb (Status_eqb (status x) done) && negb (Status_eqb (status x) error))
      eqn:Hx; [|exact IH].
    simpl. rewrite Hx, IH. reflexivity. }
  split; [|split].
  { apply countStatus_zero. intros it Hin. apply filter_In in Hin.
    destruct Hin as (_ & H). intros Hs. rewrite Hs in H. discriminate. }
  { apply countStatus_zero. intros it Hin. apply filter_In in Hin.
    destruct Hin as (_ & H). intros Hs. rewrite Hs in H. discriminate. }
  split; [|split; [|split]];
    try (apply countStatus_filter; intros it ->; reflexivity).
  intros Hd He. rewrite countStatus_zero in Hd, He.
  induction q1 as [|x q IH]; [reflexivity|]. simpl.
  pose proof (Hd x (or_introl eq_refl)). pose proof (He x (or_introl eq_refl)).
  destruct (Status_eqb_spec (status x) done); [contradiction|].
  destruct (Status_eqb_spec (status x) error); [contradiction|]. simpl.
  f_equal. apply IH; intros it Hin; [apply Hd|apply He]; right; exact Hin.
Qed.

Lemma clearFinished_algebra_witness :
  clearFinished [clipItem processing 40; talkItem skipped 0]
  = [clipItem processing 40; talkItem skipped 0].
Proof.
  apply (clearFinished_algebra [clipItem processing 40; talkItem skipped 0] []);
    reflexivity.
Defined.

Lemma spread_id it patch : p_id patch = None -> id (spread it patch) = id it.
Proof. intros H. simpl. rewrite H. reflexivity. Qed.

Lemma spread_twice it patch : spread (spread it patch) patch = spread it patch.
Proof.
  destruct patch as [[?|] [?|] [?|] [?|] [?|] [?|] [?|]]; reflexivity.
Qed.

(** X17. Updates of different items do not get in each other's way: for
    patches that carry no id, updating item i then item j gives the same
    store as updating j then i, and applying the same update a second
    time changes nothing. *)
Theorem updateItem_updates_commute (i j : ItemId) (p p' : Patch) (q : Queue) :
  p_id p = None -> p_id p' = None ->
  (i <> j ->
   updateItem i p (updateItem j p' q) = updateItem j p' (updateItem i p q))
  /\ updateItem i p (updateItem i p q) = updateItem i p q.
Proof.
  intros Hp Hp'. unfold updateItem. rewrite !map_map. split.
  - intros Hij. apply map_ext. intros it.
    destruct (ItemId_eqb (id it) j) eqn:Ej, (ItemId_eqb (id it) i) eqn:Ei;
      rewrite ?(spread_id _ _ Hp), ?(spread_id _ _ Hp'), ?Ej, ?Ei;
      try reflexivity.
    exfalso. apply Hij.
    destruct (ItemId_eqb_spec (id it) j), (ItemId_eqb_spec (id it) i);
      congruence.
  - apply map_ext. intros it.
    destruct (ItemId_eqb (id it) i) eqn:Ei;
      rewrite ?(spread_id _ _ Hp), ?Ei; [apply spread_twice|reflexivity].
Qed.

Lemma updateItem_updates_commute_witness :
  updateItem clipId (donePatch "blob:1")
    (updateItem talkId processingPatch [clipItem processing 80; talkItem queued 0])
  = updateItem talkId processingPatch
      (updateItem clipId (donePatch "blob:1")
         [clipItem processing 80; talkItem queued 0]).
Proof.
  apply (updateItem_updates_commute clipId talkId (donePatch "blob:1")
           processingPatch [clipItem processing 80; talkItem queued 0]
           eq_refl eq_refl).
  discriminate.
Defined.

(** ** More on the download name *)

Local Open Scope string_scope.

(** X18. The edges of the download name: a name that ends in ['.'] keeps
    all of it, the empty name gives ['-compressed.mp4'], a name that is
    nothing but ['.'] and an extension loses all of it, and two names
    that differ in their last extension only get the same download name. *)
Theorem download_name_edges :
  (forall base, downloadName (base ++ ".") = base ++ "." ++ "-compressed.mp4")
  /\ downloadName "" = "-compressed.mp4"
  /\ (forall ext, (forall n, get n ext <> Some "."%char) -> ext <> "" ->
        downloadName ("." ++ ext) = "-compressed.mp4")
  /\ (forall base e1 e2,
        (forall n, get n e1 <> Some "."%char) -> e1 <> "" ->
        (forall n, get n e2 <> Some "."%char) -> e2 <> "" ->
        downloadName (base ++ "." ++ e1) = downloadName (base ++ "." ++ e2)).
Proof.
  split; [|split; [reflexivity|split]].
  - intros base. unfold downloadName. rewrite replaceExt_trailing_dot.
    rewrite append_assoc. reflexivity.
  - intros ext H Hne. apply noDot_get in H. unfold downloadName.
    change ("." ++ ext) with ("" ++ String "." ext).
    rewrite (replaceExt_extension "" ext H Hne). reflexivity.
  - intros base e1 e2 H1 Hn1 H2 Hn2.
    apply noDot_get in H1. apply noDot_get in H2. unfold downloadName.
    change ("." ++ e1) with (String "." e1). change ("." ++ e2) with (String "." e2).
    rewrite (replaceExt_extension base e1 H1 Hn1),
            (replaceExt_extension base e2 H2 Hn2).
    reflexivity.
Qed.

Lemma download_name_edges_witness :
  downloadName ("clip" ++ "." ++ "mov") = downloadName ("clip" ++ "." ++ "mp4").
Proof.
  destruct download_name_edges as (_ & _ & _ & H).
  apply H; try discriminate;
    intros n; do 3 (destruct n as [|n]; [discriminate|]); discriminate.
Defined.

Local Close Scope string_scope.

(** ** The order of the engine calls *)

Lemma justifiedIn_mono started started' seen seen' c :
  incl started started' -> incl seen seen' ->
  justifiedIn started seen c -> justifiedIn started' seen' c.
Proof.
  intros Hs Hc. destruct c as [f|[i|i]|i|a|[i|i]|[i|i]]; simpl; auto.
  - intros (s & i & Ha & Hin). exists s, i. auto.
  - intros (s & Hin). exists s. auto.
Qed.

Lemma wellOrdered_mono started started' : forall cs seen,
  incl started started' ->
  wellOrdered started seen cs -> wellOrdered started' seen cs.
Proof.
  induction cs as [|c cs IH]; intros seen Hs; simpl; [auto|].
  intros (Hj & Hw). split; [|apply IH; assumption].
  apply (justifiedIn_mono started started' seen seen c Hs (incl_refl _) Hj).
Qed.

Lemma wellOrdered_app started : forall cs seen new,
  wellOrdered started seen (cs ++ new)
  <-> wellOrdered started seen cs /\ wellOrdered started (seen ++ cs) new.
Proof.
  induction cs as [|c cs IH]; intros seen new; simpl.
  - rewrite app_nil_r. tauto.
  - rewrite IH, <- app_assoc. simpl. tauto.
Qed.

Lemma registered_app cs new : registered (cs ++ new) = registered cs ++ registered new.
Proof. unfold registered. apply flat_map_app. Qed.

Lemma settle_calls k o w t :
  nth_error (tasks w) k = Some t ->
  calls (settle k o w) = calls w ++ newCalls t o
  /\ listeners (settle k o w) = listeners w ++ registered (newCalls t o).
Proof.
  intros Hk. rewrite (settle_eq _ _ _ _ Hk). unfold resume, newCalls.
  destruct (t_phase t), o; simpl; rewrite ?app_nil_r, <- ?app_assoc;
    split; reflexivity.
Qed.

Lemma awaited_mono cs cs' t : incl cs cs' -> awaited cs t -> awaited cs' t.
Proof. intros H. unfold awaited. destruct (t_phase t); auto. Qed.

(** The calls [resume] makes are justified by the call it waited for,
    and the last of them is the call it waits for next. *)
Lemma newCalls_justified started cs t o :
  In (id (t_item t)) started -> awaited cs t ->
  wellOrdered started cs (newCalls t o)
  /\ awaited (cs ++ newCalls t o) (withPhase t (nextPhase (t_phase t) o)).
Proof.
  intros Hs Ha. unfold awaited, newCalls in *. simpl.
  destruct (t_phase t), o; simpl; repeat split; auto;
    try (apply in_or_app; right; simpl; auto; fail).
  - exists (t_settings t), (id (t_item t)). split; [reflexivity|].
    apply in_or_app. right. left. reflexivity.
  - exists (t_settings t). exact Ha.
Qed.

Lemma protocol_step e w : protocol w -> protocol (step e w).
Proof.
  intros Hp. pose proof Hp as (Hord & Haw & Hl). destruct e; simpl; try exact Hp.
  - (* Effect *)
    destruct (selectNext w) as [item|] eqn:Hsel;
      [|rewrite (processNext_idle _ Hsel); exact Hp].
    destruct (processNext_starts _ _ Hsel) as (_ & Ht' & Hc' & Hl' & _).
    unfold protocol, startedIds. rewrite Ht', Hc', Hl', map_app.
    split; [|split].
    + apply wellOrdered_app. split.
      * apply (wellOrdered_mono (startedIds w)); [|exact Hord].
        apply incl_appl, incl_refl.
      * simpl. auto.
    + intros t Ht. apply in_app_or in Ht. destruct Ht as [Ht|[<-|[]]].
      * apply (awaited_mono (calls w)); [apply incl_appl, incl_refl|apply Haw, Ht].
      * unfold awaited. simpl. apply in_or_app. right. left. reflexivity.
    + rewrite registered_app, Hl. simpl. rewrite app_nil_r. reflexivity.
  - (* Settle *)
    destruct (nth_error (tasks w) k) as [t|] eqn:Hk;
      [|rewrite (settle_no_task _ _ _ Hk); exact Hp].
    destruct (settle_calls k o w t Hk) as (Hc' & Hl').
    pose proof (settle_tasks k o w t Hk) as Ht'.
    assert (Hin : In (id (t_item t)) (startedIds w)).
    { unfold startedIds. apply in_map_iff. exists t.
      split; [reflexivity|apply (nth_error_In _ _ Hk)]. }
    destruct (newCalls_justified (startedIds w) (calls w) t o Hin
                (Haw t (nth_error_In _ _ Hk))) as (Hnew & Hnext).
    unfold protocol, startedIds. rewrite Ht', Hc', Hl', startedIds_setPhase.
    split; [|split].
    + apply wellOrdered_app. split; [exact Hord|exact Hnew].
    + intros t' Hin'.
      destruct (setPhase_In _ _ _ _ Hin') as [(j & _ & Hj)|(t0 & Hk0 & ->)].
      * apply (awaited_mono (calls w)); [apply incl_appl, incl_refl|].
        apply Haw, (nth_error_In _ _ Hj).
      * rewrite Hk in Hk0. injection Hk0 as <-. exact Hnext.
    + rewrite registered_app, Hl. reflexivity.
  - (* ClickSkip *)
    destruct (existsb _ (queue w)); exact Hp.
Qed.

Lemma protocol_run es : forall w, protocol w -> protocol (run es w).
Proof.
  induction es as [|e es IH]; intros w Hp; [exact Hp|].
  rewrite run_cons. apply IH, protocol_step, Hp.
Qed.

(** X19. The engine is called in order.  In every state the component
    reaches, each engine call made so far comes after the call it builds
    on: the file is written only for an item processNext was called on,
    the progress handler of an item is registered after its file was
    written, [exec] runs arguments made for an item whose handler was
    registered, the output of an item is read after [exec] ran for it,
    the input is deleted after the output was read and the output after
    the input was deleted; the output name is never written and the
    input name never read.  The handlers on the engine are those these
    calls registered. *)
Theorem engine_calls_in_order (es : list Event)
    (pre post : list EngineCall) (c : EngineCall) :
  calls (run es initial) = pre ++ c :: post ->
  justifiedIn (startedIds (run es initial)) pre c
  /\ listeners (run es initial) = registered (calls (run es initial)).
Proof.
  intros Hc.
  assert (Hp : protocol (run es initial)).
  { apply protocol_run. repeat split. intros t []. }
  destruct Hp as (Hord & _ & Hl). split; [|exact Hl].
  rewrite Hc in Hord. apply wellOrdered_app in Hord.
  destruct Hord as (_ & Hj & _). exact Hj.
Qed.

Lemma engine_calls_in_order_witness :
  In (ReadFile (OutputName clipId))
     [ArrayBuffer clipFile; WriteFile (InputName clipId); OnProgress clipId;
      Exec (args (settings initial) (InputName clipId) (OutputName clipId));
      ReadFile (OutputName clipId)].
Proof.
  apply (engine_calls_in_order
           (oneDropped ++ Effect :: sixFulfilled)
           [ArrayBuffer clipFile; WriteFile (InputName clipId); OnProgress clipId;
            Exec (args (settings initial) (InputName clipId) (OutputName clipId));
            ReadFile (OutputName clipId)]
           [DeleteFile (OutputName clipId)]
           (DeleteFile (InputName clipId))).
  reflexivity.
Defined.

(** ** An execution that fails *)

(** X21. When an execution fails before the item was marked done, the
    item gets the status error and the text of the thrown value (its
    message, or its string form when the message is missing or empty)
    and keeps its progress and the rest as they were; processNext returns
    without another engine call. *)
Theorem failure_marks_error_and_keeps_progress (k : nat) (e : Thrown)
    (w : World) (t : Task) (n : nat) (it : Item) :
  nth_error (tasks w) k = Some t ->
  pastRead (t_phase t) = false ->
  nth_error (queue w) n = Some it ->
  id it = id (t_item t) ->
  nth_error (queue (step (Settle k (Rejected e)) w)) n
  = Some (mkItem (id it) (file it) (name it) error (progress it) (outputUrl it)
                 (Some (match message e with
                        | Some m => if String.eqb m "" then asString e else m
                        | None => asString e
                        end)))
  /\ calls (step (Settle k (Rejected e)) w) = calls w
  /\ phaseOf k (step (Settle k (Rejected e)) w) = Some Returned.
Proof.
  intros Hk Hph Hn Hid. simpl.
  assert (Hcase : t_phase t = AwaitArrayBuffer \/ t_phase t = AwaitWriteFile
                  \/ t_phase t = AwaitExec \/ t_phase t = AwaitReadFile)
    by (destruct (t_phase t); simpl in Hph; try discriminate; auto).
  destruct (settle_rejected k e w t Hk Hcase) as (Hq & Hc & Ht).
  unfold phaseOf. rewrite Hq, Hc, Ht, updateItem_nth, Hn. simpl.
  rewrite Hid, ItemId_eqb_refl. split; [|split; reflexivity].
  unfold spread, errorPatch, errorText. simpl. rewrite Hid. reflexivity.
Qed.

Lemma failure_marks_error_and_keeps_progress_witness :
  nth_error (queue (step (Settle 0 (Rejected failure))
                      (play (oneDropped ++ [Settle 0 anyUrl; Settle 0 anyUrl;
                                            Progress (Some (2 # 5))]) initial))) 0
  = Some (mkItem clipId clipFile "clip.mov" error 40 None (Some "exec failed"%string)).
Proof.
  apply (failure_marks_error_and_keeps_progress 0 failure
           (play (oneDropped ++ [Settle 0 anyUrl; Settle 0 anyUrl;
                                 Progress (Some (2 # 5))]) initial)
           {| t_item := clipItem queued 0; t_settings := settings initial;
              t_phase := AwaitExec |} 0
           (mkItem clipId clipFile "clip.mov" processing 40 None None));
    reflexivity.
Defined.

(** * Closures of an older render *)

Lemma selectIn_renderOf w : selectIn (renderOf w) = selectNext w.
Proof. reflexivity. Qed.

Lemma processNextIn_renderOf w : processNextIn (renderOf w) w = processNext w.
Proof. reflexivity. Qed.

(** [step] is [stepIn] with the render of the present state. *)
Lemma stepIn_renderOf e w : stepIn (renderOf w) e w = step e w.
Proof. destruct e; reflexivity. Qed.

Lemma selectIn_In r item :
  selectIn r = Some item -> In item (r_queue r) /\ status item = queued.
Proof.
  unfold selectIn.
  destruct (negb (r_ready r) || negb (r_ffmpeg r)); [discriminate|].
  destruct (negb (r_running r)); [discriminate|].
  destruct (findIndex isQueued (r_queue r)) as [n|] eqn:Hfi; [|discriminate].
  destruct (findIndex_Some _ _ _ Hfi) as (pre & item' & post & Hq & _ & _ & Hit & Hnth).
  intros H. rewrite Hnth in H. injection H as <-. split.
  - rewrite Hq. apply in_or_app. right. left. reflexivity.
  - apply isQueued_true, Hit.
Qed.

Lemma processNextIn_idle r w : selectIn r = None -> processNextIn r w = w.
Proof. unfold processNextIn. intros ->. reflexivity. Qed.

Lemma processNextIn_starts r w item :
  selectIn r = Some item ->
  queue (processNextIn r w) = updateItem (id item) processingPatch (queue w)
  /\ tasks (processNextIn r w)
     = tasks w ++ [ {| t_item := item; t_settings := r_settings r;
                       t_phase := AwaitArrayBuffer |} ]
  /\ idCounter (processNextIn r w) = idCounter w.
Proof. unfold processNextIn. intros ->. repeat split. Qed.


Lemma runIn_cons r e res w : runIn ((r, e) :: res) w = runIn res (stepIn r e w).
Proof. reflexivity. Qed.

(** ** What changes a status *)



(** Why no more is claimed: the effect of a render that does not show
    the first update yet picks the same item again; the first call marks
    the item done, the second then marks it error, the URL staying. *)
Lemma stale_render_starts_item_twice :
  startedIds (runIn startedTwice (run oneDropped initial)) = [clipId; clipId]
  /\ map status (queue (runIn startedTwice (run oneDropped initial))) = [processing]
  /\ map status
       (queue (run [Settle 0 anyUrl; Settle 0 anyUrl; Settle 0 anyUrl; Settle 0 anyUrl]
                   (runIn startedTwice (run oneDropped initial))))
     = [done]
  /\ map status
       (queue (run [Settle 0 anyUrl; Settle 0 anyUrl; Settle 0 anyUrl; Settle 0 anyUrl;
                    Settle 1 (Rejected failure)]
                   (runIn startedTwice (run oneDropped initial))))
     = [error]
  /\ map outputUrl
       (queue (run [Settle 0 anyUrl; Settle 0 anyUrl; Settle 0 anyUrl; Settle 0 anyUrl;
                    Settle 1 (Rejected failure)]
                   (runIn startedTwice (run oneDropped initial))))
     = [Some "blob:1"%string].
Proof. vm_compute. repeat split. Qed.



(** ** Calls of processNext and queued items *)

Lemma startedApart_step r e w :
  pastRender r w -> startedApart w -> startedApart (stepIn r e w).
Proof.
  intros Hpast (Hfresh & Htf & Hst). destruct e; simpl.
  - (* Effect *)
    destruct (selectIn r) as [item|] eqn:Hsel;
      [|rewrite (processNextIn_idle _ _ Hsel); repeat split; assumption].
    destruct (selectIn_In _ _ Hsel) as (Hin & _).
    destruct (processNextIn_starts r w item Hsel) as (Hq' & Ht' & Hc').
    unfold startedApart. rewrite Hq', Ht', Hc'. split; [|split].
    + intros it' Hin'.
      destruct (updateItem_status (id item) processingPatch _ _ eq_refl Hin')
        as (it & Hit & Hid & _).
      rewrite Hid. apply Hfresh, Hit.
    + intros t Ht. apply in_app_or in Ht. destruct Ht as [Ht|[<-|[]]].
      * apply Htf, Ht.
      * simpl. apply Hpast, Hin.
    + intros t it' Ht Hin' Hid.
      destruct (updateItem_status (id item) processingPatch _ _ eq_refl Hin')
        as (it & Hit & Hid' & Hsame & Hupd).
      destruct (ItemId_eqb_spec (id it) (id item)) as [Heq|Hne].
      * rewrite (Hupd Heq). discriminate.
      * rewrite (Hsame Hne) in *.
        apply in_app_or in Ht. destruct Ht as [Ht|[<-|[]]].
        -- apply (Hst t it Ht Hit Hid).
        -- simpl in Hid. contradiction.
  - (* Settle *)
    destruct (nth_error (tasks w) k) as [t|] eqn:Hk;
      [|rewrite (settle_no_task _ _ _ Hk); repeat split; assumption].
    unfold startedApart.
    rewrite (settle_queue _ _ _ _ Hk), (settle_tasks _ _ _ _ Hk), settle_idCounter.
    destruct (nextPatch (t_phase t) o) as [patch|] eqn:Hp.
    + destruct (nextPatch_written _ _ _ Hp) as (Hpid & Hpst & _).
      split; [|split].
      * intros it' Hin'.
        destruct (updateItem_status _ _ _ _ Hpid Hin') as (it & Hit & Hid & _).
        rewrite Hid. apply Hfresh, Hit.
      * intros t' Ht'. destruct (setPhase_In_item _ _ _ _ Ht') as (tb & Htb & ->).
        apply Htf, Htb.
      * intros t' it' Ht' Hin' Hid.
        destruct (setPhase_In_item _ _ _ _ Ht') as (tb & Htb & Hitem).
        destruct (updateItem_status _ _ _ _ Hpid Hin') as (it & Hit & Hid' & Hsame & Hupd).
        destruct (ItemId_eqb_spec (id it) (id (t_item t))) as [Heq|Hne].
        -- rewrite (Hupd Heq). destruct Hpst as [-> | ->]; discriminate.
        -- rewrite (Hsame Hne) in *. apply (Hst tb it Htb Hit). congruence.
    + split; [exact Hfresh|split].
      * intros t' Ht'. destruct (setPhase_In_item _ _ _ _ Ht') as (tb & Htb & ->).
        apply Htf, Htb.
      * intros t' it' Ht' Hin' Hid.
        destruct (setPhase_In_item _ _ _ _ Ht') as (tb & Htb & Hitem).
        apply (Hst tb it' Htb Hin'). congruence.
  - (* Progress *)
    split; [|split; [exact Htf|]].
    + intros it' Hin'. destruct (emitProgress_In _ _ _ Hin') as (it & Hit & -> & _).
      apply Hfresh, Hit.
    + intros t it' Ht Hin' Hid.
      destruct (emitProgress_In _ _ _ Hin') as (it & Hit & Hid' & ->).
      apply (Hst t it Ht Hit). congruence.
  - (* ClickSkip *)
    destruct (existsb _ (r_queue r)); [|repeat split; assumption].
    split; [|split; [exact Htf|]]; simpl; unfold cancelItem.
    + intros it' Hin'. apply updateItem_status in Hin'; [|reflexivity].
      destruct Hin' as (it & Hit & -> & _). apply Hfresh, Hit.
    + intros t it' Ht Hin' Hid. apply updateItem_status in Hin'; [|reflexivity].
      destruct Hin' as (it & Hit & Hid' & Hsame & Hupd).
      destruct (ItemId_eqb_spec (id it) i) as [Heq|Hne].
      * rewrite (Hupd Heq). discriminate.
      * rewrite (Hsame Hne) in *. apply (Hst t it Ht Hit Hid).
  - (* ClickClear *)
    assert (Hsub : forall it, In it (clearFinished (queue w)) -> In it (queue w))
      by (intros it H; apply filter_In in H; apply H).
    split; [|split; [exact Htf|]]; simpl.
    + intros it Hin. apply Hfresh, Hsub, Hin.
    + intros t it Ht Hin. apply (Hst t it Ht (Hsub _ Hin)).
  - (* AddFiles *)
    split; [|split]; simpl; unfold addFiles.
    + intros it Hin. apply in_app_or in Hin. destruct Hin as [Hin|Hin].
      * pose proof (Hfresh it Hin). lia.
      * apply newItems_In in Hin. lia.
    + intros t Ht. pose proof (Htf t Ht). lia.
    + intros t it Ht Hin Hid. apply in_app_or in Hin. destruct Hin as [Hin|Hin].
      * apply (Hst t it Ht Hin Hid).
      * apply newItems_In in Hin. pose proof (Htf t Ht). rewrite Hid in Hin. lia.
  - repeat split; assumption.
  - repeat split; assumption.
  - repeat split; assumption.
Qed.

Lemma startedApart_run res : forall w,
  pastRenders res w -> startedApart w -> startedApart (runIn res w).
Proof.
  induction res as [|[r e] res IH]; intros w Hp Hw; [exact Hw|].
  destruct Hp as (Hr & Hrest). rewrite runIn_cons.
  apply IH; [exact Hrest|apply startedApart_step; assumption].
Qed.

(** X10. An item on which processNext was called is not queued in the
    store, and a queued item is one processNext was not called on yet:
    this holds in every state the component reaches, also when the
    effect and the Skip button belong to an older render, as long as a
    render only shows items that were made before it.  (processNext can
    be called twice on one item, by the effect of a render that does not
    show the first call's update.) *)
Theorem started_items_are_not_queued (res : list (Render * Event)) (it : Item) :
  pastRenders res initial ->
  In it (queue (runIn res initial)) ->
  (In (id it) (startedIds (runIn res initial)) -> status it <> queued)
  /\ (status it = queued -> ~ In (id it) (startedIds (runIn res initial))).
Proof.
  intros Hp Hin.
  assert (Hw : startedApart (runIn res initial)).
  { apply startedApart_run; [exact Hp|].
    unfold startedApart. simpl. repeat split; intros; contradiction. }
  destruct Hw as (_ & _ & Hst).
  assert (H : In (id it) (startedIds (runIn res initial)) -> status it <> queued).
  { intros Hs. apply in_map_iff in Hs. destruct Hs as (t & Hid & Ht).
    apply (Hst t it Ht Hin). symmetry. exact Hid. }
  split; [exact H|]. intros Hq Hs. apply (H Hs Hq).
Qed.

Lemma started_items_are_not_queued_witness :
  status (spread (clipItem queued 0) processingPatch) <> queued.
Proof.
  apply (started_items_are_not_queued
           ([(renderOf initial, Loaded);
             (renderOf initial, AddFiles [(firstDrop, clipFile)]);
             (renderOf initial, SetRunning true)] ++ startedTwice)
           (spread (clipItem queued 0) processingPatch)).
  - simpl. unfold pastRender. repeat split; intros x Hx; vm_compute in Hx;
      repeat (destruct Hx as [<-|Hx]); try contradiction;
      vm_compute; repeat constructor.
  - vm_compute. left. reflexivity.
  - vm_compute. left. reflexivity.
Defined.

(** ** Output URL and error text *)

Lemma resultKept_step r e w :
  (forall it, In it (queue w) -> resultKept it) ->
  forall it', In it' (queue (stepIn r e w)) -> resultKept it'.
Proof.
  intros Hk it' Hin'.
  assert (Hupd : forall i patch,
            patch = processingPatch
            \/ patch = mkPatch None None None (Some skipped) None None None
            \/ (exists url, patch = donePatch url)
            \/ (exists x, patch = errorPatch x) ->
            In it' (updateItem i patch (queue w)) -> resultKept it').
  { intros i patch Hpatch H. apply updateItem_In in H.
    destruct H as (it & Hin & ->).
    destruct (ItemId_eqb (id it) i); [|apply Hk, Hin].
    destruct Hpatch as [-> | [-> | [(url & ->)|(x & ->)]]];
      unfold resultKept; simpl; split; intros H; discriminate. }
  destruct e; simpl in Hin'.
  - destruct (selectIn r) as [item|] eqn:Hsel.
    + destruct (processNextIn_starts r w item Hsel) as (Hq' & _). rewrite Hq' in Hin'.
      apply (Hupd (id item) processingPatch (or_introl eq_refl) Hin').
    + rewrite (processNextIn_idle _ _ Hsel) in Hin'. apply Hk, Hin'.
  - destruct (nth_error (tasks w) k) as [t|] eqn:Hkk.
    + rewrite (settle_queue _ _ _ _ Hkk) in Hin'.
      destruct (nextPatch (t_phase t) o) as [patch|] eqn:Hp; [|apply Hk, Hin'].
      apply (Hupd (id (t_item t)) patch); [|exact Hin'].
      right. right. apply (nextPatch_cases _ _ _ Hp).
    + rewrite (settle_no_task _ _ _ Hkk) in Hin'. apply Hk, Hin'.
  - destruct (emitProgress_In_fields _ _ _ Hin')
      as (it & Hin & _ & _ & _ & Hs & Hu & He).
    unfold resultKept. rewrite Hs, Hu, He. apply Hk, Hin.
  - destruct (existsb _ (r_queue r)); [|apply Hk, Hin'].
    simpl in Hin'. unfold cancelItem in Hin'.
    apply (Hupd i (mkPatch None None None (Some skipped) None None None)
             (or_intror (or_introl eq_refl)) Hin').
  - unfold clearFinished in Hin'. apply filter_In in Hin'. apply Hk, Hin'.
  - unfold addFiles in Hin'. apply in_app_or in Hin'.
    destruct Hin' as [Hin'|Hin']; [apply Hk, Hin'|].
    apply newItems_In in Hin'. destruct Hin' as (Hs & _).
    unfold resultKept. rewrite Hs. split; intros H; discriminate.
  - apply Hk, Hin'.
  - apply Hk, Hin'.
  - apply Hk, Hin'.
Qed.

(** X11. In every state the component reaches, whatever renders the
    effect and the Skip button belong to, a done item has an output URL
    and an item in error has an error text.  (The converse does not
    hold: an item marked done and later marked error keeps its URL.) *)
Theorem done_has_url_and_error_has_text (res : list (Render * Event)) (it : Item) :
  In it (queue (runIn res initial)) ->
  (status it = done -> outputUrl it <> None)
  /\ (status it = error -> err it <> None).
Proof.
  revert it.
  assert (H : forall w, (forall it, In it (queue w) -> resultKept it) ->
                forall it, In it (queue (runIn res w)) -> resultKept it).
  { induction res as [|[r e] res IH]; intros w Hw; [exact Hw|].
    rewrite runIn_cons. apply IH. apply resultKept_step, Hw. }
  apply H. intros it [].
Qed.

Lemma done_has_url_and_error_has_text_witness :
  outputUrl (spread (clipItem queued 0) (donePatch "blob:1")) <> None.
Proof.
  apply (done_has_url_and_error_has_text
           (map (fun e => (staleRender, e)) (oneDropped ++ Effect :: sixFulfilled))
           (spread (clipItem queued 0) (donePatch "blob:1"))).
  - vm_compute. left. reflexivity.
  - reflexivity.
Defined.

(** * The percentage of the progress handler, in binary64 *)

(** The sample doubles are doubles, the nearest to the decimals named:
    each is within half a unit in the last place of its decimal. *)
Lemma sample_doubles :
  forallb (valid_binary 53 1024)
    [hundred64; d_0_25; d_0_5; d_1; d_1_5; d_minus_0_5; d_0_015; d_1_004; d_1e22]
  = true
  /\ valueOf hundred64 = Some (inject_Z 7036874417766400 * Qpower 2 (-46))%Q
  /\ (inject_Z 7036874417766400 * Qpower 2 (-46) == 100)%Q
  /\ (inject_Z 4503599627370496 * Qpower 2 (-54) == 1 # 4)%Q
  /\ (inject_Z 4503599627370496 * Qpower 2 (-53) == 1 # 2)%Q
  /\ (inject_Z 4503599627370496 * Qpower 2 (-52) == 1)%Q
  /\ (inject_Z 6755399441055744 * Qpower 2 (-52) == 3 # 2)%Q
  /\ (Qabs (inject_Z 8646911284551352 * Qpower 2 (-59) - (15 # 1000))
      <= Qpower 2 (-60))%Q
  /\ (Qabs (inject_Z 4521614025879978 * Qpower 2 (-52) - (1004 # 1000))
      <= Qpower 2 (-53))%Q
  /\ (inject_Z 4768371582031250 * Qpower 2 21 == inject_Z (10 ^ 22))%Q.
Proof.
  split; [vm_compute; reflexivity|]. split; [reflexivity|].
  repeat split; try (apply Qeq_bool_eq; vm_compute; reflexivity);
    apply Qle_bool_imp_le; vm_compute; reflexivity.
Qed.

Lemma setProgressOf_nth i v q n :
  nth_error (setProgressOf i v q) n
  = option_map (fun it => if ItemId_eqb (id it) i then setProgress it v else it)
               (nth_error q n).
Proof. unfold setProgressOf. rewrite updateItem_nth. reflexivity. Qed.

(** C6, as stated, fails: the handler does not clamp.  The double 1.5
    gives the percentage 150, which the handler writes to its item, the
    double -0.5 gives -50, and the double 1e22 gives the integer value
    of the double nearest to 1e24. *)
Lemma progress_not_clamped :
  percent64 (Some d_1_5) = Some 150%Z
  /\ progressHandler64 clipId (Some d_1_5) [clipItem processing 0; talkItem queued 0]
     = Some [clipItem processing 150; talkItem queued 0]
  /\ percent64 (Some d_minus_0_5) = Some (-50)%Z
  /\ percent64 (Some d_1e22) = Some 999999999999999983222784%Z.
Proof. vm_compute. repeat split. Qed.

(** C6, amended. For a progress value, missing or a double, whose
    product with 100 is finite, the handler registered for an item sets
    the progress of that item, and nothing else, to
    [Math.round((progress || 0) * 100)]: the integer nearest to the
    binary64 product of the value and 100, halves going up, which is 0
    for a missing value, [NaN], 0 and -0.  Nothing is clamped.  The
    doubles 0.25, 0.5 and 1 give 25, 50 and 100; the double 0.015, whose
    product with 100 is the double 1.5, gives 2, and the double 1.004
    gives 100. *)
Theorem progressHandler64_rounds_the_double_product
    (i : ItemId) (p : option spec_float) (q : Queue) (v : Z) :
  percent64 p = Some v ->
  (exists q', progressHandler64 i p q = Some q'
     /\ List.length q' = List.length q
     /\ forall n it, nth_error q n = Some it ->
          nth_error q' n
          = Some (if ItemId_eqb (id it) i then setProgress it v else it))
  /\ (exists y, valueOf (F64mul (orZero64 p) hundred64) = Some y
        /\ (inject_Z v - (1 # 2) <= y)%Q /\ (y < inject_Z v + (1 # 2))%Q)
  /\ (percent64 None = Some 0%Z
      /\ percent64 (Some S754_nan) = Some 0%Z
      /\ percent64 (Some (S754_zero false)) = Some 0%Z
      /\ percent64 (Some (S754_zero true)) = Some 0%Z)
  /\ (percent64 (Some d_0_25) = Some 25%Z
      /\ percent64 (Some d_0_5) = Some 50%Z
      /\ percent64 (Some d_1) = Some 100%Z
      /\ F64mul d_0_015 hundred64 = d_1_5
      /\ percent64 (Some d_0_015) = Some 2%Z
      /\ percent64 (Some d_1_004) = Some 100%Z).
Proof.
  intros Hv. split; [|split; [|split]].
  - exists (setProgressOf i v q). unfold progressHandler64. rewrite Hv.
    split; [reflexivity|]. split; [apply updateItem_length|].
    intros n it Hn. rewrite setProgressOf_nth, Hn. reflexivity.
  - unfold percent64, product64 in Hv.
    destruct (valueOf (F64mul (orZero64 p) hundred64)) as [y|]; [|discriminate].
    injection Hv as <-. exists y. split; [reflexivity|].
    apply Math_round_nearest.
  - vm_compute. repeat split.
  - vm_compute. repeat split.
Qed.

Lemma progressHandler64_rounds_the_double_product_witness :
  exists q', progressHandler64 clipId (Some d_0_25) [clipItem processing 0] = Some q'
    /\ List.length q' = 1%nat
    /\ forall n it, nth_error [clipItem processing 0] n = Some it ->
         nth_error q' n
         = Some (if ItemId_eqb (id it) clipId then setProgress it 25 else it).
Proof.
  apply (progressHandler64_rounds_the_double_product clipId (Some d_0_25)
           [clipItem processing 0] 25).
  vm_compute. reflexivity.
Defined.
